(** * StringUtilsBase: a shallow embedding of
    [Source/Engine/Platform/Base/StringUtilsBase.cpp] and the properties
    its specification states about it.

    Part I is the program, one module per component, in the order of the
    source's concerns:
    - [Itostr]     : the four integer [ToString] overloads and their
                     fixed stack buffer;
    - [Utf8]       : [ConvertUTF82UTF16];
    - [Paths]      : [PathRemoveRelativeParts];
    - [PathParts]  : [GetDirectoryName], [GetFileName],
                     [GetFileNameWithoutExtension],
                     [GetPathWithoutExtension], [RemoveLongPathPrefix];
    - [Find]       : the two [FindIgnoreCase] overloads;
    - [FloatParse] : [Parse(const Char*, float* )].
    Each module ends with the vocabulary its properties are stated in.
    Part II proves the properties, one section per module. *)

From Stdlib Require Import ZArith Lia List Ascii String Bool.
From Stdlib.Strings Require Import Byte.
From stdpp Require Import base list.

Open Scope Z_scope.

(** ** Outcomes shared by the components

    The source is C++: a store outside a stack array, an [Array] index
    outside [0, Count) or a read of a cell that was never written has no
    defined result.  The embedding makes each of them an explicit
    outcome instead of inventing a value. *)

Inductive outcome (A : Type) : Type :=
| Ok (a : A)
| OutOfBounds (offset : Z)
| Uninitialised (offset : Z)
| OutOfFuel.

Arguments Ok {A} a.
Arguments OutOfBounds {A} offset.
Arguments Uninitialised {A} offset.
Arguments OutOfFuel {A}.

#[global] Instance outcome_bind : MBind outcome := fun A B k m =>
  match m with
  | Ok a => k a
  | OutOfBounds o => OutOfBounds o
  | Uninitialised o => Uninitialised o
  | OutOfFuel => OutOfFuel
  end.

#[global] Instance outcome_ret : MRet outcome := fun A a => Ok a.

(** ** Fixed-width integers: wrap-around written out *)

Definition wrap_unsigned (w x : Z) : Z := x mod 2 ^ w.
Definition wrap_signed (w x : Z) : Z := (x + 2 ^ (w - 1)) mod 2 ^ w - 2 ^ (w - 1).

Definition in_signed (w x : Z) : Prop := - 2 ^ (w - 1) <= x < 2 ^ (w - 1).
Definition in_unsigned (w x : Z) : Prop := 0 <= x < 2 ^ w.

(** * Part I: the program *)

Module Itostr.

(** [const char digit_pairs[201]]: the 200 digit characters; the source's
    array also holds the terminating NUL at index 200, never read. *)
Definition digit_pairs : list ascii :=
  list_ascii_of_string
    ("00010203040506070809" ++ "10111213141516171819" ++
     "20212223242526272829" ++ "30313233343536373839" ++
     "40414243444546474849" ++ "50515253545556575859" ++
     "60616263646566676869" ++ "70717273747576777879" ++
     "80818283848586878889" ++ "90919293949596979899")%string.

(** [#define STRING_UTILS_ITOSTR_BUFFER_SIZE 15] *)
Definition STRING_UTILS_ITOSTR_BUFFER_SIZE : Z := 15.

(** [char buf[STRING_UTILS_ITOSTR_BUFFER_SIZE]]: a cell is [None] until
    it is written (a local array is not initialised). *)
Abbreviation buffer := (list (option ascii)).

Definition fresh_buf : buffer :=
  replicate (Z.to_nat STRING_UTILS_ITOSTR_BUFFER_SIZE) None.

(** [*p = c] for a cursor [p] given as its offset from [&buf[0]]. *)
Definition store (buf : buffer) (p : Z) (c : ascii) : outcome buffer :=
  if (0 <=? p) && (p <? STRING_UTILS_ITOSTR_BUFFER_SIZE)
  then Ok (<[Z.to_nat p := Some c]> buf)
  else OutOfBounds p.

(** [&digit_pairs[idx]] read at [idx]. *)
Definition table (idx : Z) : outcome ascii :=
  if idx <? 0 then OutOfBounds idx
  else match digit_pairs !! Z.to_nat idx with
       | Some c => Ok c
       | None => OutOfBounds idx
       end.

(** [Platform::MemoryCopy(it, &digit_pairs[idx], 2)] *)
Definition MemoryCopy2 (buf : buffer) (it idx : Z) : outcome buffer :=
  c0 ← table idx;
  c1 ← table (idx + 1);
  b ← store buf it c0;
  store b (it + 1) c1.

(** [String(it, (int32)(&buf[SIZE] - it))]: the characters from the
    cursor to the end of the buffer. *)
Fixpoint read_cells (off : Z) (cells : list (option ascii)) : outcome (list ascii) :=
  match cells with
  | [] => Ok []
  | None :: _ => Uninitialised off
  | Some c :: rest => s ← read_cells (off + 1) rest; Ok (c :: s)
  end.

Definition String_of (buf : buffer) (it : Z) : outcome (list ascii) :=
  if (0 <=? it) && (it <=? STRING_UTILS_ITOSTR_BUFFER_SIZE)
  then read_cells it (drop (Z.to_nat it) buf)
  else OutOfBounds it.

(** The loops stop when the quotient is zero; every turn moves the
    cursor two cells down, so a loop that is still running after
    [itostr_fuel] turns has left the buffer long before. *)
Definition itostr_fuel : nat := Z.to_nat STRING_UTILS_ITOSTR_BUFFER_SIZE.

Section Width.

Variable w : Z.

(** *** Signed overloads: [ToString(int32)], [ToString(int64)]

    [k] is the table stride of the branch: [2] in the [value >= 0]
    branch, [-2] in the other.  [/] on C++ integers truncates towards
    zero ([Z.quot]). *)
Fixpoint signed_loop (k : Z) (fuel : nat) (value div it : Z) (buf : buffer)
  : outcome (Z * Z * buffer) :=
  if div =? 0 then Ok (value, it, buf)
  else match fuel with
       | O => OutOfFuel
       | S fuel' =>
           let idx := wrap_signed w (k * wrap_signed w (value - wrap_signed w (div * 100))) in
           buf ← MemoryCopy2 buf it idx;
           let value := div in
           let it := it - 2 in
           let div := wrap_signed w (value `quot` 100) in
           signed_loop k fuel' value div it buf
       end.

Definition ToString_signed (value : Z) : outcome (list ascii) :=
  let buf := fresh_buf in
  let it := STRING_UTILS_ITOSTR_BUFFER_SIZE - 2 in
  let div := wrap_signed w (value `quot` 100) in
  if value >=? 0 then
    '(value, it, buf) ← signed_loop 2 itostr_fuel value div it buf;
    buf ← MemoryCopy2 buf it (wrap_signed w (2 * value));
    let it := if value <? 10 then it + 1 else it in
    String_of buf it
  else
    '(value, it, buf) ← signed_loop (-2) itostr_fuel value div it buf;
    buf ← MemoryCopy2 buf it (wrap_signed w (-2 * value));
    let it := if value <=? -10 then it - 1 else it in
    buf ← store buf it "-"%char;
    String_of buf it.

(** *** Unsigned overloads: [ToString(uint32)], [ToString(uint64)]

    [value] is unsigned and [div] is declared signed ([int32 div] for
    [uint32], [int64 div] for [uint64]): [value / 100] is an unsigned
    quotient converted to the signed type, [div * 100] a signed product,
    and [value - div * 100] converts it back to unsigned. *)
Fixpoint unsigned_loop (fuel : nat) (value div it : Z) (buf : buffer)
  : outcome (Z * Z * buffer) :=
  if div =? 0 then Ok (value, it, buf)
  else match fuel with
       | O => OutOfFuel
       | S fuel' =>
           let prod := wrap_signed w (div * 100) in
           let idx := wrap_unsigned w (2 * wrap_unsigned w (value - wrap_unsigned w prod)) in
           buf ← MemoryCopy2 buf it idx;
           let value := wrap_unsigned w div in
           let it := it - 2 in
           let div := wrap_signed w (value `quot` 100) in
           unsigned_loop fuel' value div it buf
       end.

Definition ToString_unsigned (value : Z) : outcome (list ascii) :=
  let buf := fresh_buf in
  let it := STRING_UTILS_ITOSTR_BUFFER_SIZE - 2 in
  let div := wrap_signed w (value `quot` 100) in
  '(value, it, buf) ← unsigned_loop itostr_fuel value div it buf;
  buf ← MemoryCopy2 buf it (wrap_unsigned w (2 * value));
  let it := if value <? 10 then it + 1 else it in
  String_of buf it.

End Width.

Definition ToString_int32 : Z -> outcome (list ascii) := ToString_signed 32.
Definition ToString_int64 : Z -> outcome (list ascii) := ToString_signed 64.
Definition ToString_uint32 : Z -> outcome (list ascii) := ToString_unsigned 32.
Definition ToString_uint64 : Z -> outcome (list ascii) := ToString_unsigned 64.

(** *** What the text denotes *)

(** A conventional base-10 reader, used to state what the produced text
    denotes: an optional leading minus, then one or more digits. *)
Definition digit_of (c : ascii) : option Z :=
  let n := Z.of_nat (nat_of_ascii c) in
  if (48 <=? n) && (n <=? 57) then Some (n - 48) else None.

Fixpoint parse_digits (acc : Z) (s : list ascii) : option Z :=
  match s with
  | [] => Some acc
  | c :: s' =>
      match digit_of c with
      | Some d => parse_digits (acc * 10 + d) s'
      | None => None
      end
  end.

Definition parse_decimal (s : list ascii) : option Z :=
  match s with
  | [] => None
  | c :: ds =>
      if Ascii.eqb c "-"
      then match ds with
           | [] => None
           | _ => option_map Z.opp (parse_digits 0 ds)
           end
      else parse_digits 0 s
  end.

Definition digit_char (d : Z) : ascii := ascii_of_nat (Z.to_nat (48 + d)).

(** The text of [v] with the minimal number of digits: a minus exactly
    when [v] is negative, then the digits of the magnitude, the first of
    which is ['0'] only when it is the only one. *)
Definition canonical_decimal (v : Z) (s : list ascii) : Prop :=
  exists ds : list ascii,
    s = (if v <? 0 then ["-"%char] else []) ++ ds /\
    ds <> [] /\
    parse_digits 0 ds = Some (Z.abs v) /\
    (head ds = Some "0"%char -> ds = ["0"%char]).

(** Reading back what an overload returned; an overload that left the
    buffer returned no text to read. *)
Definition reparse (r : outcome (list ascii)) : option Z :=
  match r with
  | Ok s => parse_decimal s
  | _ => None
  end.

(** The loop of all four overloads once the fixed-width arithmetic is
    seen to be exact: it runs on the magnitude [a] of the value. *)
Fixpoint pair_loop (fuel : nat) (a it : Z) (buf : buffer) : outcome (Z * Z * buffer) :=
  if a / 100 =? 0 then Ok (a, it, buf)
  else match fuel with
       | O => OutOfFuel
       | S fuel' =>
           buf ← MemoryCopy2 buf it (2 * (a mod 100));
           pair_loop fuel' (a / 100) (it - 2) buf
       end.

Definition scale_result (s : Z) (r : outcome (Z * Z * buffer)) : outcome (Z * Z * buffer) :=
  '(a, it, buf) ← r; Ok (s * a, it, buf).

Definition table_row_ok (k : nat) : bool :=
  let r := Z.of_nat k in
  match table (2 * r), table (2 * r + 1) with
  | Ok c0, Ok c1 =>
      Ascii.eqb c0 (digit_char (r / 10)) && Ascii.eqb c1 (digit_char (r mod 10))
  | _, _ => false
  end.

Definition pairs_text (n : nat) (low : Z) (txt : list ascii) : Prop :=
  length txt = (2 * n)%nat /\
  forall acc : Z, parse_digits acc txt = Some (acc * 100 ^ Z.of_nat n + low).

(** What the tail of every overload does with the loop's result. *)
Definition top_digits (top : Z) : list ascii :=
  if top <? 10 then [digit_char top]
  else [digit_char (top / 10); digit_char (top mod 10)].

(** What every overload computes once its arithmetic is exact: the
    loop on the magnitude [a], the last pair, and the minus sign of a
    negative value. *)
Definition magnitude_text_of (negative : bool) (a : Z) : outcome (list ascii) :=
  '(top, it, buf) ← pair_loop itostr_fuel a (STRING_UTILS_ITOSTR_BUFFER_SIZE - 2) fresh_buf;
  buf ← MemoryCopy2 buf it (2 * top);
  if negative then
    let it := if - top <=? -10 then it - 1 else it in
    buf ← store buf it "-"%char;
    String_of buf it
  else String_of buf (if top <? 10 then it + 1 else it).

End Itostr.

Module Utf8.

(** [LOG(Error, ...)]: the log is a sink beside the function; the caller
    of the [void] function receives nothing from it. *)
Inductive log_entry : Type :=
| LogError (msg : string).

Definition not_utf8 : log_entry := LogError "Not a UTF-8 string.".

(** [unsigned char ch = from[i++]] *)
Definition byte_val (b : byte) : Z := Z.of_N (Byte.to_N b).

(** The chain of tests on a leading byte: the payload bits and the
    number [todo] of continuation bytes, or [None] for the two branches
    that log and return. *)
Definition lead (ch : Z) : option (Z * nat) :=
  if ch <=? 0x7F then Some (ch, 0%nat)
  else if ch <=? 0xBF then None
  else if ch <=? 0xDF then Some (Z.land ch 0x1F, 1%nat)
  else if ch <=? 0xEF then Some (Z.land ch 0x0F, 2%nat)
  else if ch <=? 0xF7 then Some (Z.land ch 0x07, 3%nat)
  else None.

(** [for (uint32 j = 0; j < todo; j++)]: [rest] is what remains of
    [from] at index [i]; [None] is either of the two returns inside the
    loop. *)
Fixpoint continuation (todo : nat) (uni : Z) (rest : list byte) : option (Z * list byte) :=
  match todo with
  | O => Some (uni, rest)
  | S todo' =>
      match rest with
      | [] => None
      | b :: rest' =>
          let ch := byte_val b in
          if (ch <? 0x80) || (0xBF <? ch) then None
          else continuation todo' (Z.shiftl uni 6 + Z.land ch 0x3F) rest'
      end
  end.

Inductive decoded : Type :=
| Decoded (unicode : list Z)
| NotUtf8
| DecodeFuel.

(** [while (i < fromLength)]: the first loop, filling [unicode]. *)
Fixpoint decode_loop (fuel : nat) (rest : list byte) (unicode : list Z) : decoded :=
  match rest with
  | [] => Decoded unicode
  | b :: rest' =>
      match fuel with
      | O => DecodeFuel
      | S fuel' =>
          match lead (byte_val b) with
          | None => NotUtf8
          | Some (uni, todo) =>
              match continuation todo uni rest' with
              | None => NotUtf8
              | Some (uni, rest'') =>
                  if ((0xD800 <=? uni) && (uni <=? 0xDFFF)) || (0x10FFFF <? uni)
                  then NotUtf8
                  else decode_loop fuel' rest'' (unicode ++ [uni])
              end
          end
      end
  end.

(** Every turn of the first loop reads at least one byte. *)
Definition decode (from : list byte) : decoded :=
  decode_loop (length from) from [].

(** [unicode[i]]: the engine's [Array] checks its index. *)
Definition at_index (unicode : list Z) (i : nat) : outcome Z :=
  match unicode !! i with
  | Some u => Ok u
  | None => OutOfBounds (Z.of_nat i)
  end.

(** "Count chars": [for (i = 0; i < length; i++) if (unicode[i] > 0xFFFF) length++;] *)
Fixpoint count_loop (fuel : nat) (unicode : list Z) (i length : nat) : outcome nat :=
  if (i <? length)%nat then
    match fuel with
    | O => OutOfFuel
    | S fuel' =>
        u ← at_index unicode i;
        count_loop fuel' unicode (S i) (if 0xFFFF <? u then S length else length)
    end
  else Ok length.

(** [(Char)x]: [Char] is a 16-bit code unit. *)
Definition to_Char (x : Z) : Z := wrap_unsigned 16 x.

(** [to[i] = c] and [to[i] += c] on the caller's buffer, whose cells hold
    what the caller left there. *)
Definition assign (to : list Z) (i : nat) (c : Z) : outcome (list Z) :=
  match to !! i with
  | Some _ => Ok (<[i := c]> to)
  | None => OutOfBounds (Z.of_nat i)
  end.

Definition add_assign (to : list Z) (i : nat) (c : Z) : outcome (list Z) :=
  match to !! i with
  | Some old => Ok (<[i := to_Char (old + c)]> to)
  | None => OutOfBounds (Z.of_nat i)
  end.

(** "Copy chars": [for (i = 0; i < length; i++)], with the second
    increment of [i] inside the surrogate branch. *)
Fixpoint copy_loop (fuel : nat) (unicode : list Z) (to : list Z) (i length : nat)
  : outcome (list Z) :=
  if (i <? length)%nat then
    match fuel with
    | O => OutOfFuel
    | S fuel' =>
        uni ← at_index unicode i;
        if uni <=? 0xFFFF then
          to ← assign to i (to_Char uni);
          copy_loop fuel' unicode to (S i) length
        else
          let uni := uni - 0x10000 in
          to ← add_assign to i (to_Char (Z.shiftr uni 10 + 0xD800));
          let i := S i in
          to ← add_assign to i (to_Char (Z.land uni 0x3FF + 0xDC00));
          copy_loop fuel' unicode to (S i) length
    end
  else Ok to.

(** What the call leaves behind: the caller's buffer, [*toLength], and
    the log. *)
Record converted : Type := Converted {
  to_buffer : list Z;
  toLength : Z;
  logged : list log_entry
}.

(** [void ConvertUTF82UTF16(const char* from, Char* to, uint32 fromLength, uint32* toLength)];
    [from] is given as its first [fromLength] bytes. *)
Definition ConvertUTF82UTF16 (from : list byte) (to : list Z) : outcome converted :=
  match decode from with
  | NotUtf8 => Ok (Converted to 0 [not_utf8])
  | DecodeFuel => OutOfFuel
  | Decoded unicode =>
      let count := length unicode in
      len ← count_loop (S count) unicode 0 count;
      to' ← copy_loop len unicode to 0 len;
      Ok (Converted to' (Z.of_nat len) [])
  end.

(** What the caller of the [void] function can observe afterwards. *)
Definition visible (r : outcome converted) : option (list Z * Z) :=
  match r with
  | Ok c => Some (to_buffer c, toLength c)
  | _ => None
  end.

(** *** Well-formed and malformed input, in the words of the specification

    Sequence length from the high bits of the leading byte:
    [0xxxxxxx] one byte, [110xxxxx] two, [1110xxxx] three, [11110xxx]
    four; [10xxxxxx] and [11111xxx] start no sequence.  A continuation
    byte is [10xxxxxx].  The code point is the leading byte's payload
    with six bits shifted in per continuation byte; it is a scalar when
    it is outside [0xD800, 0xDFFF] and at most [0x10FFFF]. *)
Definition sequence_length (b : byte) : option nat :=
  let v := byte_val b in
  if Z.shiftr v 7 =? 0 then Some 1%nat
  else if Z.shiftr v 5 =? 6 then Some 2%nat
  else if Z.shiftr v 4 =? 14 then Some 3%nat
  else if Z.shiftr v 3 =? 30 then Some 4%nat
  else None.

Definition is_continuation (b : byte) : bool := Z.shiftr (byte_val b) 6 =? 2.

Definition payload_bits (n : nat) : Z :=
  match n with
  | 1%nat => 7
  | 2%nat => 5
  | 3%nat => 4
  | _ => 3
  end.

Definition shift_in (acc : Z) (c : byte) : Z :=
  Z.lor (Z.shiftl acc 6) (Z.land (byte_val c) 0x3F).

Definition assemble (n : nat) (leading : byte) (conts : list byte) : Z :=
  fold_left shift_in conts (Z.land (byte_val leading) (Z.ones (payload_bits n))).

Definition is_scalar (cp : Z) : bool :=
  negb ((0xD800 <=? cp) && (cp <=? 0xDFFF)) && (cp <=? 0x10FFFF).

Definition all_continuation (conts : list byte) : Prop :=
  Forall (fun c => is_continuation c = true) conts.

Definition good_sequence (leading : byte) (conts : list byte) (cp : Z) : Prop :=
  exists n : nat,
    sequence_length leading = Some n /\
    length conts = pred n /\
    all_continuation conts /\
    cp = assemble n leading conts /\
    is_scalar cp = true.

Inductive well_formed : list byte -> list Z -> Prop :=
| wf_nil : well_formed [] []
| wf_cons (leading : byte) (conts : list byte) (cp : Z) (rest : list byte) (cps : list Z) :
    good_sequence leading conts cp ->
    well_formed rest cps ->
    well_formed (leading :: conts ++ rest) (cp :: cps).

Inductive malformed : list byte -> Prop :=
| bad_lead (b : byte) (rest : list byte) :
    sequence_length b = None ->
    malformed (b :: rest)
| bad_continuation (leading : byte) (n : nat) (conts rest : list byte) :
    sequence_length leading = Some n ->
    (length conts < pred n)%nat ->
    all_continuation conts ->
    match rest with
    | [] => True
    | c :: _ => is_continuation c = false
    end ->
    malformed (leading :: conts ++ rest)
| bad_code_point (leading : byte) (n : nat) (conts rest : list byte) :
    sequence_length leading = Some n ->
    length conts = pred n ->
    all_continuation conts ->
    is_scalar (assemble n leading conts) = false ->
    malformed (leading :: conts ++ rest)
| bad_later (leading : byte) (conts : list byte) (cp : Z) (rest : list byte) :
    good_sequence leading conts cp ->
    malformed rest ->
    malformed (leading :: conts ++ rest).

(** The UTF-16 units of a list of code points: one unit up to [0xFFFF],
    otherwise the surrogate pair. *)
Definition utf16_units (cp : Z) : list Z :=
  if cp <=? 0xFFFF then [cp]
  else [Z.shiftr (cp - 0x10000) 10 + 0xD800; Z.land (cp - 0x10000) 0x3FF + 0xDC00].

(** The statement that a rejection can be told from a success by the
    caller: no malformed input leaves the caller with what some
    well-formed input leaves. *)
Definition failure_is_distinct : Prop :=
  forall (bad good : list byte) (to : list Z),
    malformed bad ->
    (exists cps : list Z, well_formed good cps) ->
    visible (ConvertUTF82UTF16 bad to) <> visible (ConvertUTF82UTF16 good to).

End Utf8.

Module Paths.

(** [String]: the characters of the path. *)
Abbreviation String := (list ascii).

Definition text (s : string) : String := list_ascii_of_string s.

(** [a == b] on [String]. *)
Fixpoint String_eqb (a b : String) : bool :=
  match a, b with
  | [], [] => true
  | x :: a', y :: b' => Ascii.eqb x y && String_eqb a' b'
  | _, _ => false
  end.

Definition slash : ascii := "/"%char.
Definition parent : String := text "..".
Definition current : String := text ".".

(** Modelled from the spec: [FileSystem::NormalizePath] is not among the
    sources; step (1) of the normalizer converts every separator to the
    forward slash. *)
Definition NormalizePath (path : String) : String :=
  map (fun c => if Ascii.eqb c "\"%char then slash else c) path.

(** Modelled from the spec: [String::Split] is not among the sources;
    step (2) splits on the separator into the ordered segments, and
    consecutive separators collapse (an empty segment is dropped).
    [cur] is the segment being read. *)
Fixpoint split_from (sep : ascii) (cur : String) (s : String) : list String :=
  match s with
  | [] => match cur with
          | [] => []
          | _ => [cur]
          end
  | c :: s' =>
      if Ascii.eqb c sep
      then match cur with
           | [] => split_from sep [] s'
           | _ => cur :: split_from sep [] s'
           end
      else split_from sep (cur ++ [c]) s'
  end.

Definition Split (sep : ascii) (path : String) : list String := split_from sep [] path.

(** Modelled from the spec: [String::operator/=] is not among the
    sources; step (4) joins the segments with the separator between
    them. *)
Definition path_append (path e : String) : String :=
  match path with
  | [] => e
  | _ => path ++ slash :: e
  end.

(** [path.StartsWith(TEXT('/'))] *)
Definition StartsWith (path : String) (c : ascii) : bool :=
  match path with
  | x :: _ => Ascii.eqb x c
  | [] => false
  end.

(** The body of [for (auto& bit : components)].  [stack] has its top
    first: [Push] conses, [Pop] takes the head, [HasItems] is the
    non-empty test. *)
Definition visit (stack : list String) (bit : String) : list String :=
  if String_eqb bit parent then
    match stack with
    | popped :: stack' =>
        if String_eqb popped parent then bit :: popped :: stack' else stack'
    | [] => [bit]
    end
  else if String_eqb bit current then stack
  else bit :: stack.

(** [for (auto& e : stack) path /= e;] walks the array from its first
    element, the bottom of the stack. *)
Definition join (stack : list String) : String :=
  fold_left path_append (rev stack) [].

Definition PathRemoveRelativeParts (path : String) : String :=
  let path := NormalizePath path in
  let components := Split slash path in
  let stack := fold_left visit components [] in
  let isRooted := StartsWith path slash in
  let path := join stack in
  if isRooted then slash :: path else path.

(** *** Reading a path back *)

Definition segments_of (path : String) : list String := Split slash path.

(** A path ascends past its start when, reading its segments from the
    left, a [..] arrives with no ordinary segment left to cancel;
    [depth] counts the ordinary segments not yet cancelled. *)
Fixpoint ascends_from (depth : nat) (segs : list String) : bool :=
  match segs with
  | [] => false
  | s :: rest =>
      if String_eqb s parent then
        match depth with
        | O => true
        | S d => ascends_from d rest
        end
      else if String_eqb s current then ascends_from depth rest
      else ascends_from (S depth) rest
  end.

Definition ascends (path : String) : bool :=
  ascends_from 0 (segments_of (NormalizePath path)).

(** The second half of the invariant as the specification words it. *)
Definition leading_parent_only_if_relative : Prop :=
  forall path : String,
    head (segments_of (PathRemoveRelativeParts path)) = Some parent ->
    StartsWith (NormalizePath path) slash = false /\ ascends path = true.

Definition segment_ok (s : String) : Prop := s <> [] /\ ~ In slash s.

(** The shape of the stack after any number of turns of the loop, top
    first: ordinary segments above [k] copies of [..]. *)
Definition stack_normal (stack : list String) : Prop :=
  exists (ords : list String) (k : nat),
    stack = ords ++ replicate k parent /\
    Forall (fun s => s <> parent /\ s <> current) ords.

Definition backslash : ascii := "\"%char.

End Paths.

Module PathParts.

Import Paths.

(** [const char DirectorySeparatorChar = '\\'] and its two companions. *)
Definition DirectorySeparatorChar : ascii := "\"%char.
Definition AltDirectorySeparatorChar : ascii := "/"%char.
Definition VolumeSeparatorChar : ascii := ":"%char.

(** [INVALID_INDEX], which the source also spells [-1]. *)
Definition INVALID_INDEX : Z := -1.

(** Modelled from the spec: [String::FindLast] is not among the sources;
    the index of the last occurrence of [c], [INVALID_INDEX] when there
    is none, which is what its callers test for. *)
Fixpoint FindLast (path : String) (c : ascii) : Z :=
  match path with
  | [] => INVALID_INDEX
  | x :: rest =>
      let r := FindLast rest c in
      if r =? INVALID_INDEX
      then (if Ascii.eqb x c then 0 else INVALID_INDEX)
      else r + 1
  end.

(** Modelled from the spec: [String::Length], [String::Left],
    [String::Substring] and [String::operator[]] are not among the
    sources; the substring operations of the string collaborator, the
    index checked as the engine's containers check theirs. *)
Definition Length (path : String) : Z := Z.of_nat (length path).

Definition Left (path : String) (count : Z) : String := take (Z.to_nat count) path.

Definition Substring (path : String) (start count : Z) : String :=
  take (Z.to_nat count) (drop (Z.to_nat start) path).

Definition char_at (path : String) (i : Z) : outcome ascii :=
  if i <? 0 then OutOfBounds i
  else match path !! Z.to_nat i with
       | Some c => Ok c
       | None => OutOfBounds i
       end.

(** [String StringUtils::GetDirectoryName(const String& path)] *)
Definition GetDirectoryName (path : String) : String :=
  let lastFrontSlash := FindLast path "\"%char in
  let lastBackSlash := FindLast path "/"%char in
  let splitIndex := Z.max lastBackSlash lastFrontSlash in
  if splitIndex =? INVALID_INDEX then [] else Left path splitIndex.

(** The [do ... while] of [GetFileName]: [n] is [num] before [num--], so
    that [num < 0] is [n = 0]; the result is the [num] the loop stops at,
    [None] for the [return path] inside it. *)
Fixpoint scan_back (path : String) (n : nat) : outcome (option Z) :=
  match n with
  | O => Ok None
  | S n' =>
      let num := Z.of_nat n' in
      chr ← char_at path num;
      if negb (Ascii.eqb chr DirectorySeparatorChar) &&
         negb (Ascii.eqb chr AltDirectorySeparatorChar) &&
         negb (Ascii.eqb chr VolumeSeparatorChar)
      then scan_back path n'
      else Ok (Some num)
  end.

(** [String StringUtils::GetFileName(const String& path)] *)
Definition GetFileName (path : String) : outcome String :=
  let length := Length path in
  r ← scan_back path (Z.to_nat length);
  match r with
  | None => Ok path
  | Some num => Ok (Substring path (num + 1) (length - num - 1))
  end.

(** [String StringUtils::GetFileNameWithoutExtension(const String& path)] *)
Definition GetFileNameWithoutExtension (path : String) : outcome String :=
  filename ← GetFileName path;
  let num := FindLast filename "."%char in
  if negb (num =? -1) then Ok (Substring filename 0 num) else Ok filename.

(** [String StringUtils::GetPathWithoutExtension(const String& path)] *)
Definition GetPathWithoutExtension (path : String) : String :=
  let num := FindLast path "."%char in
  if negb (num =? -1) then Substring path 0 num else path.

Section LongPathPrefix.

(** [String::StartsWith] with either [StringSearchCase] decides nothing
    in [RemoveLongPathPrefix]: the two tests stay as they come. *)
Variable StartsWith_CaseSensitive : String -> String -> bool.
Variable StartsWith_IgnoreCase : String -> String -> bool.

(** Modelled from the spec: the one-argument [String::Substring] is not
    among the sources; [Substring(start)] is the text from [start] on,
    and a [start] outside the string has no result. *)
Definition Substring_from (s : String) (start : Z) : outcome String :=
  if (0 <=? start) && (start <=? Length s) then Ok (drop (Z.to_nat start) s)
  else OutOfBounds start.

(** Modelled from the spec: [String::Remove] is not among the sources;
    [Remove(start, count)] takes [count] characters out at [start], and
    a range that leaves the string has no result. *)
Definition Remove (s : String) (start count : Z) : outcome String :=
  if (0 <=? start) && (0 <=? count) && (start + count <=? Length s)
  then Ok (take (Z.to_nat start) s ++ drop (Z.to_nat (start + count)) s)
  else OutOfBounds (start + count).

(** [void RemoveLongPathPrefix(const String& path, String& result)]:
    [result] is passed in and the new [result] is returned. *)
Definition RemoveLongPathPrefix (path result : String) : outcome String :=
  let result :=
    if negb (StartsWith_CaseSensitive path (text "\\?\")) then path else result in
  result ← (if negb (StartsWith_IgnoreCase path (text "\\?\UNC\"))
            then Substring_from path 4
            else Ok result);
  let result := path in
  Remove result 2 6.

End LongPathPrefix.

(** A character that ends the scan of [GetFileName]. *)
Definition is_separator (c : ascii) : bool :=
  Ascii.eqb c DirectorySeparatorChar || Ascii.eqb c AltDirectorySeparatorChar ||
  Ascii.eqb c VolumeSeparatorChar.

Definition is_slash (c : ascii) : bool :=
  Ascii.eqb c DirectorySeparatorChar || Ascii.eqb c AltDirectorySeparatorChar.

End PathParts.

Module Find.

(** A null-terminated string is given by its code units; a read at or
    past the end of the list is the terminator.  A pointer argument is
    [None] when it is [nullptr]. *)
Definition deref (s : list Z) : Z :=
  match s with
  | [] => 0
  | c :: _ => c
  end.

(** [Length(s)]: the units before the terminator. *)
Fixpoint Length (s : list Z) : Z :=
  match s with
  | [] => 0
  | c :: s' => if c =? 0 then 0 else 1 + Length s'
  end.

(** Modelled from the spec: [ToUpper] is declared in a header that is not
    among the sources; the CaseFold component is the ASCII upper-casing
    primitive. *)
Definition ToUpper (c : Z) : Z :=
  if (97 <=? c) && (c <=? 122) then c - 32 else c.

(** The same on [char] strings; [(char)x] keeps the low eight bits. *)
Definition deref_char (s : list ascii) : ascii :=
  match s with
  | [] => zero
  | c :: _ => c
  end.

Fixpoint Length_char (s : list ascii) : Z :=
  match s with
  | [] => 0
  | c :: s' => if Ascii.eqb c zero then 0 else 1 + Length_char s'
  end.

Definition char_val (c : ascii) : Z := Z.of_N (N_of_ascii c).
Definition to_char (x : Z) : ascii := ascii_of_N (Z.to_N (wrap_unsigned 8 x)).

Section Overloads.

(** [CompareIgnoreCase(a, b, length)] is platform code that is not among
    the sources: both overloads take it as it comes. *)
Variable CompareIgnoreCase : list Z -> list Z -> Z -> Z.

(** [strChar = *str++] followed by one turn of [while (strChar)]: [pos]
    is the offset of [strChar] in the haystack, so that [str - 1] is
    [Some pos]. *)
Fixpoint scan (findInitial : Z) (toFind : list Z) (length : Z)
         (str : list Z) (pos : nat) : option nat :=
  match str with
  | [] => None
  | strChar :: str =>
      if strChar =? 0 then None
      else
        let strChar := ToUpper strChar in
        if (strChar =? findInitial) && (CompareIgnoreCase str toFind length =? 0)
        then Some pos
        else scan findInitial toFind length str (S pos)
  end.

(** [const Char* FindIgnoreCase(const Char* str, const Char* toFind)] *)
Definition FindIgnoreCase (str toFind : option (list Z)) : option nat :=
  match str, toFind with
  | Some str, Some toFind =>
      let findInitial := ToUpper (deref toFind) in
      let length := wrap_signed 32 (Length toFind - 1) in
      let toFind := tail toFind in
      scan findInitial toFind length str 0
  | _, _ => None
  end.

(** The 8-bit overload: the same text on [char], with the results of
    [ToUpper] cast back to [char]. *)
Variable CompareIgnoreCase_char : list ascii -> list ascii -> Z -> Z.

Fixpoint scan_char (findInitial : ascii) (toFind : list ascii) (length : Z)
         (str : list ascii) (pos : nat) : option nat :=
  match str with
  | [] => None
  | strChar :: str =>
      if Ascii.eqb strChar zero then None
      else
        let strChar := to_char (ToUpper (char_val strChar)) in
        if Ascii.eqb strChar findInitial &&
           (CompareIgnoreCase_char str toFind length =? 0)
        then Some pos
        else scan_char findInitial toFind length str (S pos)
  end.

(** [const char* FindIgnoreCase(const char* str, const char* toFind)] *)
Definition FindIgnoreCase_char (str toFind : option (list ascii)) : option nat :=
  match str, toFind with
  | Some str, Some toFind =>
      let findInitial := to_char (ToUpper (char_val (deref_char toFind))) in
      let length := wrap_signed 32 (Length_char toFind - 1) in
      let toFind := tail toFind in
      scan_char findInitial toFind length str 0
  | _, _ => None
  end.

(** The edge case as the specification words it: the empty needle is
    found at the start of every haystack. *)
Definition empty_needle_matches_at_start : Prop :=
  (forall s : list Z, FindIgnoreCase (Some s) (Some []) = Some 0%nat) /\
  (forall s : list ascii, FindIgnoreCase_char (Some s) (Some []) = Some 0%nat).

End Overloads.

(** Modelled from the spec: [CompareIgnoreCase] is not among the sources;
    a fixed-length case-insensitive equality check, zero when the first
    [length] units agree. *)
Fixpoint compare_units (a b : list Z) (n : nat) : Z :=
  match n with
  | O => 0
  | S n' =>
      let x := ToUpper (deref a) in
      let y := ToUpper (deref b) in
      if x =? y then (if x =? 0 then 0 else compare_units (tail a) (tail b) n')
      else x - y
  end.

Definition CompareIgnoreCase_model (a b : list Z) (length : Z) : Z :=
  compare_units a b (Z.to_nat length).

Definition units (s : string) : list Z :=
  map (fun c => Z.of_N (N_of_ascii c)) (list_ascii_of_string s).

(** Offset [pos] of the haystack passes the two tests of the loop: its
    unit, upper-cased, is the upper-cased first unit of the needle, and
    the comparison of what follows it with the rest of the needle over
    [Length(toFind) - 1] units returns zero. *)
Definition hit (cmp : list Z -> list Z -> Z -> Z) (toFind str : list Z) (pos : nat) : bool :=
  match drop pos str with
  | [] => false
  | c :: rest =>
      (ToUpper c =? ToUpper (deref toFind)) &&
      (cmp rest (tail toFind) (wrap_signed 32 (Length toFind - 1)) =? 0)
  end.

Definition hit_char (cmp : list ascii -> list ascii -> Z -> Z)
           (toFind str : list ascii) (pos : nat) : bool :=
  match drop pos str with
  | [] => false
  | c :: rest =>
      Ascii.eqb (to_char (ToUpper (char_val c)))
                (to_char (ToUpper (char_val (deref_char toFind)))) &&
      (cmp rest (tail toFind) (wrap_signed 32 (Length_char toFind - 1)) =? 0)
  end.

End Find.

Module FloatParse.

(** [str[i]] and [Length(str)] on a null-terminated [Char] string given
    by its code units. *)
Definition unit_at (str : list Z) (i : nat) : Z := nth i str 0.

Definition Length : list Z -> Z := Find.Length.

(** The characters before the terminator. *)
Fixpoint c_str (str : list Z) : list Z :=
  match str with
  | [] => []
  | c :: rest => if c =? 0 then [] else c :: c_str rest
  end.

Definition code (c : ascii) : Z := Z.of_N (N_of_ascii c).

Section Wcstof.

(** [float] and the C library's [wcstof] stay abstract: [is_zero v] is
    the test [v == 0]. *)
Variable float : Type.
Variable wcstof : list Z -> float.
Variable is_zero : float -> bool.

(** [bool Parse(const Char* str, float* result)]: [result] receives [v],
    and the function returns [true] when it reports a failure. *)
Definition Parse (str : list Z) : float * bool :=
  let v := wcstof str in
  if is_zero v then
    let len := Length str in
    (v, negb ((unit_at str 0 =? code "0") &&
              ((len =? 1) ||
               ((len =? 3) &&
                ((unit_at str 1 =? code ",") || (unit_at str 1 =? code ".")) &&
                (unit_at str 2 =? code "0")))))
  else (v, false).

Definition value (r : float * bool) : float := fst r.
Definition success (r : float * bool) : bool := negb (snd r).

End Wcstof.

(** The three texts the wrapper takes for a zero. *)
Definition zero_literal (text : list Z) : Prop :=
  text = Find.units "0" \/ text = Find.units "0.0" \/ text = Find.units "0,0".

(** A small decimal reader standing for [wcstof] where an instance is
    needed: an optional sign, digits, an optional point and digits, as a
    fraction; text that starts with none of it reads as zero. *)
Fixpoint read_digits (num den scale : Z) (s : list Z) : Z * Z :=
  match s with
  | [] => (num, den)
  | c :: rest =>
      if (48 <=? c) && (c <=? 57)
      then read_digits (num * 10 + (c - 48)) (den * scale) scale rest
      else (num, den)
  end.

Fixpoint skip_digits (s : list Z) : list Z :=
  match s with
  | [] => []
  | c :: rest => if (48 <=? c) && (c <=? 57) then skip_digits rest else s
  end.

Definition read_decimal (s : list Z) : Z * Z :=
  let '(sign, s) :=
    match s with
    | 45 :: rest => (-1, rest)
    | 43 :: rest => (1, rest)
    | _ => (1, s)
    end in
  let '(whole, _) := read_digits 0 1 1 s in
  match skip_digits s with
  | 46 :: frac =>
      let '(num, den) := read_digits whole 1 10 frac in (sign * num, den)
  | _ => (sign * whole, 1)
  end.

Definition fraction_is_zero (q : Z * Z) : bool := fst q =? 0.

End FloatParse.

(** * Part II: its properties *)

(** ** Integer formatting *)

Section ItostrFacts.

Import Itostr.

(** *** Fixed-width arithmetic is exact on the values the loops see *)

Lemma wrap_signed_id (w x : Z) : 0 < w -> in_signed w x -> wrap_signed w x = x.
Proof.
  unfold in_signed, wrap_signed. intros Hw Hx.
  assert (E : 2 ^ w = 2 * 2 ^ (w - 1)).
  { replace w with (Z.succ (w - 1)) at 1 by lia. rewrite Z.pow_succ_r by lia. reflexivity. }
  rewrite Z.mod_small by lia. lia.
Qed.

Lemma wrap_unsigned_id (w x : Z) : in_unsigned w x -> wrap_unsigned w x = x.
Proof. unfold in_unsigned, wrap_unsigned. intros Hx. apply Z.mod_small; lia. Qed.

Lemma wrap_unsigned_signed (w x : Z) :
  0 < w -> wrap_unsigned w (wrap_signed w x) = wrap_unsigned w x.
Proof.
  unfold wrap_unsigned, wrap_signed. intros Hw.
  assert (Hp : 0 < 2 ^ w) by (apply Z.pow_pos_nonneg; lia).
  rewrite Zminus_mod, Zmod_mod, <- Zminus_mod.
  f_equal. lia.
Qed.

Lemma drop_insert_here {A} (l : list A) (i : nat) (x : A) :
  (i < length l)%nat -> drop i (<[i := x]> l) = x :: drop (S i) l.
Proof.
  revert l. induction i as [|i IH]; intros [|a l] Hl; simpl in *; try lia; auto.
  apply IH. lia.
Qed.

Lemma drop_insert_pair {A} (l : list A) (i : nat) (x y : A) :
  (S i < length l)%nat ->
  drop i (<[S i := y]> (<[i := x]> l)) = x :: y :: drop (S (S i)) l.
Proof.
  revert l. induction i as [|i IH]; intros l Hl.
  - destruct l as [|a [|b l]]; simpl in *; try lia. reflexivity.
  - destruct l as [|a l]; simpl in *; try lia. apply IH. lia.
Qed.

Lemma store_ok (buf : buffer) (p : Z) (c : ascii) :
  0 <= p < STRING_UTILS_ITOSTR_BUFFER_SIZE ->
  store buf p c = Ok (<[Z.to_nat p := Some c]> buf).
Proof.
  intros Hp. unfold store.
  destruct (Z.leb_spec 0 p); try lia.
  destruct (Z.ltb_spec p STRING_UTILS_ITOSTR_BUFFER_SIZE); try lia. reflexivity.
Qed.

Lemma store_out (buf : buffer) (p : Z) (c : ascii) :
  p < 0 -> store buf p c = OutOfBounds p.
Proof.
  intros Hp. unfold store. destruct (Z.leb_spec 0 p); try lia. reflexivity.
Qed.

Lemma below_100_cases (P : Z -> Prop) :
  (forall k : nat, (k < 100)%nat -> P (Z.of_nat k)) ->
  forall r : Z, 0 <= r < 100 -> P r.
Proof.
  intros H r Hr. rewrite <- (Z2Nat.id r) by lia. apply H. lia.
Qed.

Lemma table_pair (r : Z) :
  0 <= r < 100 ->
  table (2 * r) = Ok (digit_char (r / 10)) /\
  table (2 * r + 1) = Ok (digit_char (r mod 10)).
Proof.
  revert r. apply below_100_cases. intros k Hk.
  assert (Hall : forallb table_row_ok (seq 0 100) = true) by (vm_compute; reflexivity).
  rewrite forallb_forall in Hall.
  specialize (Hall k). unfold table_row_ok in Hall.
  assert (Hin : In k (seq 0 100)) by (apply in_seq; lia).
  specialize (Hall Hin).
  destruct (table (2 * Z.of_nat k)); try discriminate.
  destruct (table (2 * Z.of_nat k + 1)); try discriminate.
  apply andb_true_iff in Hall. destruct Hall as [H0 H1].
  apply Ascii.eqb_eq in H0, H1. subst. split; reflexivity.
Qed.

Lemma MemoryCopy2_ok (buf : buffer) (it r : Z) :
  length buf = Z.to_nat STRING_UTILS_ITOSTR_BUFFER_SIZE ->
  0 <= it -> it + 1 < STRING_UTILS_ITOSTR_BUFFER_SIZE ->
  0 <= r < 100 ->
  exists buf' : buffer,
    MemoryCopy2 buf it (2 * r) = Ok buf' /\
    length buf' = Z.to_nat STRING_UTILS_ITOSTR_BUFFER_SIZE /\
    drop (Z.to_nat it) buf' =
      Some (digit_char (r / 10)) :: Some (digit_char (r mod 10))
        :: drop (Z.to_nat (it + 2)) buf.
Proof.
  intros Hlen H0 H1 Hr. unfold MemoryCopy2.
  destruct (table_pair r Hr) as [-> ->]. simpl.
  rewrite store_ok by lia. simpl. rewrite store_ok by lia.
  eexists. split; [reflexivity|]. split.
  - rewrite !length_insert. exact Hlen.
  - replace (Z.to_nat (it + 1)) with (S (Z.to_nat it)) by lia.
    replace (Z.to_nat (it + 2)) with (S (S (Z.to_nat it))) by lia.
    apply drop_insert_pair. unfold STRING_UTILS_ITOSTR_BUFFER_SIZE in *. lia.
Qed.

Lemma MemoryCopy2_out (buf : buffer) (it r : Z) :
  it < 0 -> 0 <= r < 100 -> MemoryCopy2 buf it (2 * r) = OutOfBounds it.
Proof.
  intros Hit Hr. unfold MemoryCopy2.
  destruct (table_pair r Hr) as [-> ->]. simpl.
  rewrite store_out by lia. reflexivity.
Qed.

Lemma read_cells_written (off : Z) (txt : list ascii) :
  read_cells off (map Some txt) = Ok txt.
Proof.
  revert off. induction txt as [|c txt IH]; intros off; simpl; [reflexivity|].
  rewrite IH. reflexivity.
Qed.

Lemma parse_digits_app (acc : Z) (s1 s2 : list ascii) :
  parse_digits acc (s1 ++ s2) =
  match parse_digits acc s1 with
  | Some a => parse_digits a s2
  | None => None
  end.
Proof.
  revert acc. induction s1 as [|c s1 IH]; intros acc; simpl; [reflexivity|].
  destruct (digit_of c); [apply IH | reflexivity].
Qed.

Lemma digit_of_digit_char (d : Z) :
  0 <= d < 10 -> digit_of (digit_char d) = Some d.
Proof.
  intros Hd.
  assert (C : d = 0 \/ d = 1 \/ d = 2 \/ d = 3 \/ d = 4 \/
              d = 5 \/ d = 6 \/ d = 7 \/ d = 8 \/ d = 9) by lia.
  repeat (destruct C as [-> | C]; [reflexivity|]). subst. reflexivity.
Qed.

Lemma digit_char_zero (d : Z) :
  0 <= d < 10 -> digit_char d = "0"%char -> d = 0.
Proof.
  intros Hd E. pose proof (digit_of_digit_char d Hd) as H.
  rewrite E in H. vm_compute in H. congruence.
Qed.

Lemma parse_pair (acc r : Z) :
  0 <= r < 100 ->
  parse_digits acc [digit_char (r / 10); digit_char (r mod 10)] = Some (acc * 100 + r).
Proof.
  intros Hr. simpl.
  rewrite digit_of_digit_char by (split; [apply Z.div_pos; lia | apply Z.div_lt_upper_bound; lia]).
  rewrite digit_of_digit_char by (apply Z.mod_pos_bound; lia).
  f_equal. pose proof (Z.div_mod r 10). lia.
Qed.

Lemma pair_loop_fits (fuel m : nat) (a it : Z) (buf : buffer) :
  (m <= S fuel)%nat ->
  it = 2 * Z.of_nat m - 1 ->
  0 <= it ->
  it + 1 < STRING_UTILS_ITOSTR_BUFFER_SIZE ->
  0 <= a < 100 ^ Z.of_nat m ->
  length buf = Z.to_nat STRING_UTILS_ITOSTR_BUFFER_SIZE ->
  exists (n : nat) (top low : Z) (buf' : buffer) (txt : list ascii),
    pair_loop fuel a it buf = Ok (top, it - 2 * Z.of_nat n, buf') /\
    (n < m)%nat /\
    length buf' = Z.to_nat STRING_UTILS_ITOSTR_BUFFER_SIZE /\
    0 <= top < 100 /\
    (top = 0 -> n = 0%nat) /\
    0 <= low < 100 ^ Z.of_nat n /\
    a = top * 100 ^ Z.of_nat n + low /\
    pairs_text n low txt /\
    drop (Z.to_nat (it + 2 - 2 * Z.of_nat n)) buf' =
      map Some txt ++ drop (Z.to_nat (it + 2)) buf.
Proof.
  revert m a it buf.
  induction fuel as [|fuel IH]; intros m a it buf Hm Hit Hpos Hfit Ha Hlen.
  - assert (m = 1%nat) by lia.
    subst m. change (100 ^ Z.of_nat 1) with 100 in Ha.
    simpl. rewrite Z.div_small by lia. simpl.
    exists 0%nat, a, 0, buf, []. simpl.
    split_and!; try lia.
    + f_equal. f_equal. f_equal. lia.
    + split; [reflexivity|]. intros acc. simpl. f_equal. lia.
    + f_equal. lia.
  - simpl. destruct (Z.eqb_spec (a / 100) 0) as [E|E].
    + assert (Hs : a < 100).
      { destruct (Z.lt_ge_cases a 100) as [|G]; [assumption|].
        pose proof (Z.div_le_lower_bound a 100 1 ltac:(lia) ltac:(lia)). lia. }
      exists 0%nat, a, 0, buf, []. simpl.
      split_and!; try lia.
      * f_equal. f_equal. f_equal. lia.
      * split; [reflexivity|]. intros acc. simpl. f_equal. lia.
      * f_equal. lia.
    + assert (Hbig : 100 <= a).
      { destruct (Z.lt_ge_cases a 100) as [L|]; [|assumption].
        rewrite Z.div_small in E by lia. lia. }
      destruct m as [|[|m]];
        [lia | change (100 ^ Z.of_nat 1) with 100 in Ha; lia | ].
      assert (Hr : 0 <= a mod 100 < 100) by (apply Z.mod_pos_bound; lia).
      destruct (MemoryCopy2_ok buf it (a mod 100) Hlen Hpos Hfit Hr)
        as (buf1 & Hcopy & Hlen1 & Hdrop1).
      rewrite Hcopy. simpl.
      assert (Hq : 0 <= a / 100 < 100 ^ Z.of_nat (S m)).
      { split; [apply Z.div_pos; lia|].
        apply Z.div_lt_upper_bound; [lia|].
        replace (Z.of_nat (S (S m))) with (Z.succ (Z.of_nat (S m))) in Ha by lia.
        rewrite Z.pow_succ_r in Ha by lia. lia. }
      destruct (IH (S m) (a / 100) (it - 2) buf1 ltac:(lia) ltac:(lia) ltac:(lia) ltac:(lia) Hq Hlen1)
        as (n & top & low & buf' & txt & Hloop & Hn & Hlen' & Htop & Hz & Hlow & Hval & [Htl Htp] & Hdrop).
      exists (S n), top, (low * 100 + a mod 100), buf',
        (txt ++ [digit_char (a mod 100 / 10); digit_char (a mod 100 mod 10)]).
      assert (Hpow : 100 ^ Z.of_nat (S n) = 100 * 100 ^ Z.of_nat n).
      { replace (Z.of_nat (S n)) with (Z.succ (Z.of_nat n)) by lia.
        apply Z.pow_succ_r. lia. }
      assert (Hpn : 0 < 100 ^ Z.of_nat n) by (apply Z.pow_pos_nonneg; lia).
      assert (Htop0 : top <> 0).
      { intros Ht. specialize (Hz Ht). subst n. change (100 ^ Z.of_nat 0) with 1 in *. lia. }
      split_and!; try lia.
      * rewrite Hloop. f_equal. f_equal. f_equal. lia.
      * rewrite Hpow. pose proof (Z.div_mod a 100 ltac:(lia)). nia.
      * split.
        -- rewrite length_app, Htl. simpl. lia.
        -- intros acc. rewrite parse_digits_app, Htp, parse_pair by assumption.
           f_equal. rewrite Hpow. ring.
      * replace (it + 2 - 2 * Z.of_nat (S n)) with (it - 2 + 2 - 2 * Z.of_nat n) by lia.
        rewrite Hdrop. replace (it - 2 + 2) with it by lia.
        rewrite Hdrop1, map_app, <- app_assoc. reflexivity.
Qed.

Lemma pair_loop_overflows (fuel m : nat) (a it : Z) (buf : buffer) :
  (m < fuel)%nat ->
  it = 2 * Z.of_nat m - 1 ->
  it + 1 < STRING_UTILS_ITOSTR_BUFFER_SIZE ->
  100 ^ Z.of_nat m <= a ->
  length buf = Z.to_nat STRING_UTILS_ITOSTR_BUFFER_SIZE ->
  pair_loop fuel a it buf = OutOfBounds (-1) \/
  exists (top : Z) (buf' : buffer),
    pair_loop fuel a it buf = Ok (top, -1, buf') /\ 0 <= top < 100.
Proof.
  revert m a it buf.
  induction fuel as [|fuel IH]; intros m a it buf Hm Hit Hfit Ha Hlen; [lia|].
  assert (Hpos : 0 < 100 ^ Z.of_nat m) by (apply Z.pow_pos_nonneg; lia).
  simpl. destruct (Z.eqb_spec (a / 100) 0) as [E|E].
  - assert (Hs : a < 100).
    { destruct (Z.lt_ge_cases a 100) as [|G]; [assumption|].
      pose proof (Z.div_le_lower_bound a 100 1 ltac:(lia) ltac:(lia)). lia. }
    destruct m as [|m].
    + right. exists a, buf. split; [|lia]. f_equal. f_equal. f_equal. lia.
    + replace (Z.of_nat (S m)) with (Z.succ (Z.of_nat m)) in Ha by lia.
      rewrite Z.pow_succ_r in Ha by lia.
      assert (0 < 100 ^ Z.of_nat m) by (apply Z.pow_pos_nonneg; lia). lia.
  - assert (Hr : 0 <= a mod 100 < 100) by (apply Z.mod_pos_bound; lia).
    destruct m as [|m].
    + left. rewrite MemoryCopy2_out by lia. simpl. f_equal. lia.
    + destruct (MemoryCopy2_ok buf it (a mod 100) Hlen ltac:(lia) Hfit Hr)
        as (buf1 & Hcopy & Hlen1 & _).
      rewrite Hcopy. simpl.
      apply (IH m); try lia; try assumption.
      replace (Z.of_nat (S m)) with (Z.succ (Z.of_nat m)) in Ha by lia.
      rewrite Z.pow_succ_r in Ha by lia.
      apply Z.div_le_lower_bound; lia.
Qed.

Lemma quot_signed_magnitude (s a : Z) :
  s = 1 \/ s = -1 -> 0 <= a -> (s * a) `quot` 100 = s * (a / 100).
Proof.
  intros [-> | ->] Ha.
  - rewrite !Z.mul_1_l. apply Z.quot_div_nonneg; lia.
  - replace (-1 * a) with (- a) by lia.
    rewrite Z.quot_opp_l by lia. rewrite Z.quot_div_nonneg by lia. lia.
Qed.

Lemma pow2_at_least (w n : Z) : 0 <= n <= w -> 2 ^ n <= 2 ^ w.
Proof. intros. apply Z.pow_le_mono_r; lia. Qed.

Lemma signed_loop_pair_loop (w s : Z) (fuel : nat) (a it : Z) (buf : buffer) :
  9 <= w ->
  s = 1 \/ s = -1 ->
  0 <= a ->
  in_signed w (s * a) ->
  signed_loop w (2 * s) fuel (s * a) (wrap_signed w ((s * a) `quot` 100)) it buf =
  scale_result s (pair_loop fuel a it buf).
Proof.
  intros Hw Hs. revert a it buf.
  assert (H256 : 256 <= 2 ^ (w - 1)).
  { change 256 with (2 ^ 8). apply pow2_at_least. lia. }
  induction fuel as [|fuel IH]; intros a it buf Ha Hin.
  - simpl. rewrite quot_signed_magnitude by assumption.
    assert (Hq : 0 <= a / 100 <= a).
    { split; [apply Z.div_pos; lia|]. apply Z.div_le_upper_bound; lia. }
    rewrite wrap_signed_id by (unfold in_signed in *; lia).
    destruct (Z.eqb_spec (a / 100) 0) as [E|E].
    + rewrite E, Z.mul_0_r. reflexivity.
    + destruct (Z.eqb_spec (s * (a / 100)) 0) as [E'|E']; [lia|]. reflexivity.
  - simpl. rewrite quot_signed_magnitude by assumption.
    assert (Hq : 0 <= a / 100 <= a).
    { split; [apply Z.div_pos; lia|]. apply Z.div_le_upper_bound; lia. }
    pose proof (Z.div_mod a 100 ltac:(lia)) as Hdm.
    assert (Hr : 0 <= a mod 100 < 100) by (apply Z.mod_pos_bound; lia).
    assert (Hin' : in_signed w (s * (a / 100))) by (unfold in_signed in *; lia).
    rewrite (wrap_signed_id w (s * (a / 100))) by (assumption || lia).
    destruct (Z.eqb_spec (a / 100) 0) as [E|E].
    + rewrite E, Z.mul_0_r. reflexivity.
    + destruct (Z.eqb_spec (s * (a / 100)) 0) as [E'|E']; [lia|].
      rewrite (wrap_signed_id w (s * (a / 100) * 100)) by (unfold in_signed in *; lia).
      replace (s * a - s * (a / 100) * 100) with (s * (a mod 100)) by lia.
      rewrite (wrap_signed_id w (s * (a mod 100))) by (unfold in_signed; lia).
      replace (2 * s * (s * (a mod 100))) with (2 * (a mod 100)) by (destruct Hs; subst; lia).
      rewrite (wrap_signed_id w (2 * (a mod 100))) by (unfold in_signed; lia).
      destruct (MemoryCopy2 buf it (2 * (a mod 100))) as [buf1| | |]; simpl; try reflexivity.
      apply IH; [lia | assumption].
Qed.

Lemma unsigned_loop_pair_loop (w : Z) (fuel : nat) (a it : Z) (buf : buffer) :
  8 <= w ->
  in_unsigned w a ->
  unsigned_loop w fuel a (wrap_signed w (a `quot` 100)) it buf = pair_loop fuel a it buf.
Proof.
  intros Hw. revert a it buf.
  assert (H256 : 256 <= 2 ^ w).
  { change 256 with (2 ^ 8). apply pow2_at_least. lia. }
  assert (E2 : 2 ^ w = 2 * 2 ^ (w - 1)).
  { replace w with (Z.succ (w - 1)) at 1 by lia. rewrite Z.pow_succ_r by lia. reflexivity. }
  induction fuel as [|fuel IH]; intros a it buf Hin; unfold in_unsigned in Hin.
  - simpl. rewrite Z.quot_div_nonneg by lia.
    assert (Hq : 0 <= a / 100 /\ a / 100 * 100 <= a).
    { split; [apply Z.div_pos; lia|]. pose proof (Z.mul_div_le a 100). lia. }
    rewrite wrap_signed_id by (unfold in_signed; lia). reflexivity.
  - simpl. rewrite Z.quot_div_nonneg by lia.
    assert (Hq : 0 <= a / 100 /\ a / 100 * 100 <= a).
    { split; [apply Z.div_pos; lia|]. pose proof (Z.mul_div_le a 100). lia. }
    pose proof (Z.div_mod a 100 ltac:(lia)) as Hdm.
    assert (Hr : 0 <= a mod 100 < 100) by (apply Z.mod_pos_bound; lia).
    rewrite (wrap_signed_id w (a / 100)) by (unfold in_signed; lia).
    destruct (Z.eqb_spec (a / 100) 0) as [E|E]; [reflexivity|].
    rewrite wrap_unsigned_signed by lia.
    rewrite (wrap_unsigned_id w (a / 100 * 100)) by (unfold in_unsigned; lia).
    replace (a - a / 100 * 100) with (a mod 100) by lia.
    rewrite (wrap_unsigned_id w (a mod 100)) by (unfold in_unsigned; lia).
    rewrite (wrap_unsigned_id w (2 * (a mod 100))) by (unfold in_unsigned; lia).
    rewrite (wrap_unsigned_id w (a / 100)) by (unfold in_unsigned; lia).
    destruct (MemoryCopy2 buf it (2 * (a mod 100))) as [buf1| | |]; simpl; try reflexivity.
    apply IH. unfold in_unsigned. lia.
Qed.

Lemma String_of_written (buf : buffer) (it : Z) (txt : list ascii) :
  0 <= it <= STRING_UTILS_ITOSTR_BUFFER_SIZE ->
  drop (Z.to_nat it) buf = map Some txt ->
  String_of buf it = Ok txt.
Proof.
  intros Hit Hd. unfold String_of.
  destruct (Z.leb_spec 0 it); try lia.
  destruct (Z.leb_spec it STRING_UTILS_ITOSTR_BUFFER_SIZE); try lia.
  simpl. rewrite Hd. apply read_cells_written.
Qed.

Lemma drop_next {A} (l : list A) (i : nat) (x : A) (rest : list A) :
  drop i l = x :: rest -> drop (S i) l = rest.
Proof.
  intros H. replace (S i) with (i + 1)%nat by lia.
  rewrite <- drop_drop, H. reflexivity.
Qed.

Lemma top_digits_parse (top : Z) :
  0 <= top < 100 -> parse_digits 0 (top_digits top) = Some top.
Proof.
  intros Ht. unfold top_digits. destruct (Z.ltb_spec top 10).
  - simpl. rewrite digit_of_digit_char by lia. reflexivity.
  - rewrite parse_pair by lia. f_equal.
Qed.

Lemma top_digits_head (top : Z) :
  0 <= top < 100 -> head (top_digits top) = Some "0"%char -> top = 0.
Proof.
  intros Ht. unfold top_digits. destruct (Z.ltb_spec top 10); simpl; intros E.
  - apply digit_char_zero; [lia | congruence].
  - assert (top / 10 = 0).
    { apply digit_char_zero; [|congruence].
      split; [apply Z.div_pos; lia | apply Z.div_lt_upper_bound; lia]. }
    pose proof (Z.div_mod top 10 ltac:(lia)).
    pose proof (Z.mod_pos_bound top 10 ltac:(lia)). lia.
Qed.

Lemma digits_canonical (n : nat) (top low a : Z) (txt : list ascii) :
  0 <= top < 100 ->
  (top = 0 -> n = 0%nat) ->
  0 <= low < 100 ^ Z.of_nat n ->
  a = top * 100 ^ Z.of_nat n + low ->
  pairs_text n low txt ->
  parse_digits 0 (top_digits top ++ txt) = Some a /\
  top_digits top ++ txt <> [] /\
  (head (top_digits top ++ txt) = Some "0"%char -> top_digits top ++ txt = ["0"%char]).
Proof.
  intros Ht Hz Hlow Ha [Hlen Hp]. split_and!.
  - rewrite parse_digits_app, top_digits_parse, Hp by assumption. f_equal. lia.
  - unfold top_digits. destruct (top <? 10); discriminate.
  - intros Hh.
    assert (top = 0).
    { apply top_digits_head; [assumption|].
      unfold top_digits in *. destruct (top <? 10); exact Hh. }
    specialize (Hz H). subst. destruct txt; [reflexivity | discriminate].
Qed.

Lemma finish_nonneg (top it : Z) (buf : buffer) (txt : list ascii) :
  0 <= it -> it + 1 < STRING_UTILS_ITOSTR_BUFFER_SIZE ->
  length buf = Z.to_nat STRING_UTILS_ITOSTR_BUFFER_SIZE ->
  0 <= top < 100 ->
  drop (Z.to_nat (it + 2)) buf = map Some txt ->
  (buf' ← MemoryCopy2 buf it (2 * top);
   String_of buf' (if top <? 10 then it + 1 else it)) = Ok (top_digits top ++ txt).
Proof.
  intros H0 H1 Hlen Ht Hd.
  destruct (MemoryCopy2_ok buf it top Hlen H0 H1 Ht) as (buf' & -> & Hlen' & Hdrop).
  simpl. rewrite Hd in Hdrop. unfold top_digits.
  destruct (Z.ltb_spec top 10).
  - apply String_of_written; [lia|].
    replace (Z.to_nat (it + 1)) with (S (Z.to_nat it)) by lia.
    rewrite (drop_next _ _ _ _ Hdrop).
    rewrite Z.mod_small by lia. reflexivity.
  - apply String_of_written; [lia|]. exact Hdrop.
Qed.

Lemma finish_neg (top it : Z) (buf : buffer) (txt : list ascii) :
  1 <= it -> it + 1 < STRING_UTILS_ITOSTR_BUFFER_SIZE ->
  length buf = Z.to_nat STRING_UTILS_ITOSTR_BUFFER_SIZE ->
  0 <= top < 100 ->
  drop (Z.to_nat (it + 2)) buf = map Some txt ->
  (buf' ← MemoryCopy2 buf it (2 * top);
   let it' := if - top <=? -10 then it - 1 else it in
   buf'' ← store buf' it' "-"%char;
   String_of buf'' it') = Ok ("-"%char :: top_digits top ++ txt).
Proof.
  intros H0 H1 Hlen Ht Hd.
  destruct (MemoryCopy2_ok buf it top Hlen ltac:(lia) H1 Ht) as (buf' & -> & Hlen' & Hdrop).
  simpl. rewrite Hd in Hdrop. unfold top_digits.
  assert (Hsz : STRING_UTILS_ITOSTR_BUFFER_SIZE = 15) by reflexivity.
  destruct (Z.leb_spec (- top) (-10)); destruct (Z.ltb_spec top 10); try lia.
  - rewrite store_ok by lia. simpl.
    apply String_of_written; [lia|].
    rewrite drop_insert_here by lia.
    replace (S (Z.to_nat (it - 1))) with (Z.to_nat it) by lia.
    rewrite Hdrop. reflexivity.
  - rewrite store_ok by lia. simpl.
    apply String_of_written; [lia|].
    rewrite drop_insert_here by lia.
    rewrite (drop_next _ _ _ _ Hdrop).
    rewrite Z.mod_small by lia. reflexivity.
Qed.

Lemma fresh_buf_length : length fresh_buf = Z.to_nat STRING_UTILS_ITOSTR_BUFFER_SIZE.
Proof. reflexivity. Qed.

Lemma canonical_parses (v : Z) (s : list ascii) :
  canonical_decimal v s -> parse_decimal s = Some v.
Proof.
  intros (ds & -> & Hne & Hp & _).
  destruct ds as [|d ds]; [congruence|].
  destruct (Z.ltb_spec v 0) as [Hneg|Hpos].
  - change (parse_decimal (["-"%char] ++ d :: ds))
      with (option_map Z.opp (parse_digits 0 (d :: ds))).
    rewrite Hp. simpl. f_equal. lia.
  - change ([] ++ d :: ds) with (d :: ds). unfold parse_decimal.
    destruct (Ascii.eqb_spec d "-"%char) as [->|Hd].
    + simpl in Hp. discriminate.
    + rewrite Hp. f_equal. lia.
Qed.

Lemma magnitude_text (a : Z) :
  0 <= a < 100 ^ 7 ->
  exists (n : nat) (top low : Z) (buf : buffer) (txt : list ascii),
    pair_loop itostr_fuel a (STRING_UTILS_ITOSTR_BUFFER_SIZE - 2) fresh_buf
      = Ok (top, 13 - 2 * Z.of_nat n, buf) /\
    (n < 7)%nat /\
    length buf = Z.to_nat STRING_UTILS_ITOSTR_BUFFER_SIZE /\
    0 <= top < 100 /\
    (top = 0 -> n = 0%nat) /\
    0 <= low < 100 ^ Z.of_nat n /\
    a = top * 100 ^ Z.of_nat n + low /\
    pairs_text n low txt /\
    drop (Z.to_nat (13 + 2 - 2 * Z.of_nat n)) buf = map Some txt.
Proof.
  intros Ha.
  assert (Hfuel : (7 <= S itostr_fuel)%nat) by (unfold itostr_fuel, STRING_UTILS_ITOSTR_BUFFER_SIZE; lia).
  assert (Hfit : 13 + 1 < STRING_UTILS_ITOSTR_BUFFER_SIZE) by reflexivity.
  destruct (pair_loop_fits itostr_fuel 7 a 13 fresh_buf Hfuel eq_refl
              ltac:(lia) Hfit Ha fresh_buf_length)
    as (n & top & low & buf & txt & H1 & H2 & H3 & H4 & H5 & H6 & H7 & H8 & H9).
  exists n, top, low, buf, txt.
  change (drop (Z.to_nat (13 + 2)) fresh_buf) with (@nil (option ascii)) in H9.
  rewrite app_nil_r in H9.
  split_and!; try assumption; lia.
Qed.

Lemma magnitude_overflow (a : Z) :
  100 ^ 7 <= a ->
  pair_loop itostr_fuel a (STRING_UTILS_ITOSTR_BUFFER_SIZE - 2) fresh_buf = OutOfBounds (-1) \/
  exists (top : Z) (buf : buffer),
    pair_loop itostr_fuel a (STRING_UTILS_ITOSTR_BUFFER_SIZE - 2) fresh_buf = Ok (top, -1, buf) /\
    0 <= top < 100.
Proof.
  intros Ha.
  assert (Hfuel : (7 < itostr_fuel)%nat) by (unfold itostr_fuel, STRING_UTILS_ITOSTR_BUFFER_SIZE; lia).
  assert (Hfit : 13 + 1 < STRING_UTILS_ITOSTR_BUFFER_SIZE) by reflexivity.
  exact (pair_loop_overflows itostr_fuel 7 a 13 fresh_buf Hfuel eq_refl Hfit Ha
           fresh_buf_length).
Qed.

Lemma ToString_unsigned_text (w v : Z) :
  8 <= w -> in_unsigned w v -> v < 100 ^ 7 ->
  exists s : list ascii, ToString_unsigned w v = Ok s /\ canonical_decimal v s.
Proof.
  intros Hw Hin Hv. unfold ToString_unsigned.
  rewrite unsigned_loop_pair_loop by assumption.
  destruct (magnitude_text v ltac:(unfold in_unsigned in Hin; lia))
    as (n & top & low & buf & txt & -> & Hn & Hlen & Htop & Hz & Hlow & Hval & Htxt & Hdrop).
  assert (H256 : 256 <= 2 ^ w).
  { change 256 with (2 ^ 8). apply pow2_at_least. lia. }
  simpl. rewrite wrap_unsigned_id by (unfold in_unsigned; lia).
  assert (Hsz : STRING_UTILS_ITOSTR_BUFFER_SIZE = 15) by reflexivity.
  rewrite (finish_nonneg top _ buf txt); try assumption; try lia.
  2:{ rewrite <- Hdrop. f_equal. lia. }
  eexists. split; [reflexivity|].
  destruct (digits_canonical n top low v txt Htop Hz Hlow Hval Htxt) as (Hp & Hne & Hh).
  exists (top_digits top ++ txt).
  destruct (Z.ltb_spec v 0); [unfold in_unsigned in Hin; lia|].
  split_and!; try assumption; try reflexivity.
  rewrite Hp. f_equal. unfold in_unsigned in Hin. lia.
Qed.

Lemma ToString_unsigned_overflow (w v : Z) :
  8 <= w -> in_unsigned w v -> 100 ^ 7 <= v ->
  ToString_unsigned w v = OutOfBounds (-1).
Proof.
  intros Hw Hin Hv. unfold ToString_unsigned.
  rewrite unsigned_loop_pair_loop by assumption.
  assert (H256 : 256 <= 2 ^ w).
  { change 256 with (2 ^ 8). apply pow2_at_least. lia. }
  destruct (magnitude_overflow v Hv) as [-> | (top & buf & -> & Htop)]; [reflexivity|].
  simpl. rewrite wrap_unsigned_id by (unfold in_unsigned; lia).
  rewrite MemoryCopy2_out by lia. reflexivity.
Qed.

Lemma ToString_signed_text (w v : Z) :
  9 <= w -> in_signed w v -> - 100 ^ 7 < v < 100 ^ 7 ->
  exists s : list ascii, ToString_signed w v = Ok s /\ canonical_decimal v s.
Proof.
  intros Hw Hin Hv. unfold ToString_signed.
  assert (H256 : 256 <= 2 ^ (w - 1)).
  { change 256 with (2 ^ 8). apply pow2_at_least. lia. }
  assert (Hsz : STRING_UTILS_ITOSTR_BUFFER_SIZE = 15) by reflexivity.
  destruct (Z.geb_spec v 0) as [Hpos|Hneg].
  - pose proof (signed_loop_pair_loop w 1 itostr_fuel v
                  (STRING_UTILS_ITOSTR_BUFFER_SIZE - 2) fresh_buf Hw
                  ltac:(left; reflexivity) ltac:(lia)) as Href.
    rewrite !Z.mul_1_l in Href. change (2 * 1) with 2 in Href.
    rewrite (Href Hin). clear Href.
    destruct (magnitude_text v ltac:(lia))
      as (n & top & low & buf & txt & -> & Hn & Hlen & Htop & Hz & Hlow & Hval & Htxt & Hdrop).
    simpl. rewrite !Z.mul_1_l.
    rewrite wrap_signed_id by (unfold in_signed; lia).
    rewrite (finish_nonneg top _ buf txt); try assumption; try lia.
    2:{ rewrite <- Hdrop. f_equal. lia. }
    eexists. split; [reflexivity|].
    destruct (digits_canonical n top low v txt Htop Hz Hlow Hval Htxt) as (Hp & Hne & Hh).
    exists (top_digits top ++ txt).
    destruct (Z.ltb_spec v 0); [lia|].
    split_and!; try assumption; try reflexivity.
    rewrite Hp. f_equal. lia.
  - pose proof (signed_loop_pair_loop w (-1) itostr_fuel (- v)
                  (STRING_UTILS_ITOSTR_BUFFER_SIZE - 2) fresh_buf Hw
                  ltac:(right; reflexivity) ltac:(lia)) as Href.
    replace (-1 * - v) with v in Href by lia. change (2 * -1) with (-2) in Href.
    rewrite (Href Hin). clear Href.
    destruct (magnitude_text (- v) ltac:(lia))
      as (n & top & low & buf & txt & -> & Hn & Hlen & Htop & Hz & Hlow & Hval & Htxt & Hdrop).
    simpl.
    replace (-2 * (-1 * top)) with (2 * top) by lia.
    rewrite wrap_signed_id by (unfold in_signed; lia).
    replace (-1 * top) with (- top) by lia.
    rewrite (finish_neg top _ buf txt); try assumption; try lia.
    2:{ rewrite <- Hdrop. f_equal. lia. }
    eexists. split; [reflexivity|].
    destruct (digits_canonical n top low (- v) txt Htop Hz Hlow Hval Htxt) as (Hp & Hne & Hh).
    exists (top_digits top ++ txt).
    destruct (Z.ltb_spec v 0); [|lia].
    split_and!; try assumption; try reflexivity.
    rewrite Hp. f_equal. lia.
Qed.

Lemma ToString_signed_overflow (w v : Z) :
  9 <= w -> in_signed w v -> v <= - 100 ^ 7 \/ 100 ^ 7 <= v ->
  ToString_signed w v = OutOfBounds (-1).
Proof.
  intros Hw Hin Hv. unfold ToString_signed.
  assert (H256 : 256 <= 2 ^ (w - 1)).
  { change 256 with (2 ^ 8). apply pow2_at_least. lia. }
  destruct (Z.geb_spec v 0) as [Hpos|Hneg].
  - pose proof (signed_loop_pair_loop w 1 itostr_fuel v
                  (STRING_UTILS_ITOSTR_BUFFER_SIZE - 2) fresh_buf Hw
                  ltac:(left; reflexivity) ltac:(lia)) as Href.
    rewrite !Z.mul_1_l in Href. change (2 * 1) with 2 in Href.
    rewrite (Href Hin). clear Href.
    destruct (magnitude_overflow v ltac:(lia)) as [-> | (top & buf & -> & Htop)]; [reflexivity|].
    simpl. rewrite !Z.mul_1_l.
    rewrite wrap_signed_id by (unfold in_signed; lia).
    rewrite MemoryCopy2_out by lia. reflexivity.
  - pose proof (signed_loop_pair_loop w (-1) itostr_fuel (- v)
                  (STRING_UTILS_ITOSTR_BUFFER_SIZE - 2) fresh_buf Hw
                  ltac:(right; reflexivity) ltac:(lia)) as Href.
    replace (-1 * - v) with v in Href by lia. change (2 * -1) with (-2) in Href.
    rewrite (Href Hin). clear Href.
    destruct (magnitude_overflow (- v) ltac:(lia)) as [-> | (top & buf & -> & Htop)]; [reflexivity|].
    simpl.
    replace (-2 * (-1 * top)) with (2 * top) by lia.
    rewrite wrap_signed_id by (unfold in_signed; lia).
    rewrite MemoryCopy2_out by lia. reflexivity.
Qed.

(** *** The four overloads *)

Lemma int32_fits (v : Z) : in_signed 32 v -> - 100 ^ 7 < v < 100 ^ 7.
Proof. unfold in_signed. lia. Qed.

Lemma uint32_fits (v : Z) : in_unsigned 32 v -> v < 100 ^ 7.
Proof. unfold in_unsigned. lia. Qed.

Lemma reparse_canonical (v : Z) (r : outcome (list ascii)) :
  (exists s : list ascii, r = Ok s /\ canonical_decimal v s) -> reparse r = Some v.
Proof. intros (s & -> & Hc). simpl. apply canonical_parses. exact Hc. Qed.

(** C4.  The 64-bit overloads give the canonical decimal text up to the
    last magnitude of 14 digits and no text from [10^14] on: on [10^14],
    on the signed minimum and on the unsigned maximum the call ends in a
    store outside [buf], so the text with minimal digits and one sign
    that the value should have is never returned. *)
Theorem ToString_64bit_minimal_digits_breaks :
  (exists s : list ascii,
     ToString_int64 (-99999999999999) = Ok s /\ canonical_decimal (-99999999999999) s) /\
  (exists s : list ascii,
     ToString_uint64 99999999999999 = Ok s /\ canonical_decimal 99999999999999 s) /\
  (forall s : list ascii, ToString_int64 100000000000000 <> Ok s) /\
  (forall s : list ascii, ToString_int64 (-9223372036854775808) <> Ok s) /\
  (forall s : list ascii, ToString_uint64 18446744073709551615 <> Ok s).
Proof.
  split_and!.
  - apply ToString_signed_text; [lia | unfold in_signed; lia | lia].
  - apply ToString_unsigned_text; [lia | unfold in_unsigned; lia | lia].
  - intros s. unfold ToString_int64.
    rewrite ToString_signed_overflow by (unfold in_signed; lia). discriminate.
  - intros s. unfold ToString_int64.
    rewrite ToString_signed_overflow by (unfold in_signed; lia). discriminate.
  - intros s. unfold ToString_uint64.
    rewrite ToString_unsigned_overflow by (unfold in_unsigned; lia). discriminate.
Qed.

(** The text of every [int32] and every [uint32] value is the canonical
    decimal text: a ['-'] exactly when the value is negative, then the
    digits of the magnitude with no leading ['0'] unless the text of the
    digits is ["0"] itself. *)
Theorem ToString_32bit_minimal_digits :
  (forall v : Z, in_signed 32 v ->
     exists s : list ascii, ToString_int32 v = Ok s /\ canonical_decimal v s) /\
  (forall v : Z, in_unsigned 32 v ->
     exists s : list ascii, ToString_uint32 v = Ok s /\ canonical_decimal v s).
Proof.
  split.
  - intros v Hv. apply ToString_signed_text; [lia | exact Hv | apply int32_fits, Hv].
  - intros v Hv. apply ToString_unsigned_text; [lia | exact Hv | apply uint32_fits, Hv].
Qed.

Lemma ToString_32bit_minimal_digits_witness :
  (exists s : list ascii,
     ToString_int32 (-2147483648) = Ok s /\ canonical_decimal (-2147483648) s) /\
  (exists s : list ascii,
     ToString_uint32 4294967295 = Ok s /\ canonical_decimal 4294967295 s).
Proof.
  destruct ToString_32bit_minimal_digits as (H32 & HU32).
  split.
  - apply H32. unfold in_signed. lia.
  - apply HU32. unfold in_unsigned. lia.
Defined.

(** C3.  The fixed buffer of 15 cells is too small for the 64-bit
    overloads: on the signed minimum, on [10^14] and on the unsigned
    maximum the digit-pair store lands at offset [-1], one cell before
    [&buf[0]]. *)
Theorem ToString_int64_stores_before_buffer :
  ToString_int64 (-9223372036854775808) = OutOfBounds (-1) /\
  ToString_int64 100000000000000 = OutOfBounds (-1) /\
  ToString_uint64 18446744073709551615 = OutOfBounds (-1).
Proof. split_and!; vm_compute; reflexivity. Qed.

(** C1.  Reading back [ToString(n)] does not give [n] for every 64-bit
    [n]: from [10^14] on there is no text to read, while the value just
    below still round-trips. *)
Theorem ToString_64bit_roundtrip_breaks :
  reparse (ToString_int64 99999999999999) = Some 99999999999999 /\
  reparse (ToString_int64 100000000000000) = None /\
  reparse (ToString_uint64 100000000000000) = None /\
  reparse (ToString_int64 (-9223372036854775808)) = None.
Proof. split_and!; vm_compute; reflexivity. Qed.

(** Every [int32] and [uint32] value round-trips through its text. *)
Theorem ToString_32bit_roundtrip :
  (forall v : Z, in_signed 32 v -> reparse (ToString_int32 v) = Some v) /\
  (forall v : Z, in_unsigned 32 v -> reparse (ToString_uint32 v) = Some v).
Proof.
  split; intros v Hv; apply reparse_canonical.
  - apply ToString_signed_text; [lia | exact Hv | apply int32_fits, Hv].
  - apply ToString_unsigned_text; [lia | exact Hv | apply uint32_fits, Hv].
Qed.

Lemma ToString_32bit_roundtrip_witness :
  reparse (ToString_int32 (-2147483648)) = Some (-2147483648) /\
  reparse (ToString_uint32 4294967295) = Some 4294967295.
Proof.
  split.
  - apply (proj1 ToString_32bit_roundtrip). unfold in_signed. lia.
  - apply (proj2 ToString_32bit_roundtrip). unfold in_unsigned. lia.
Defined.

(** The 64-bit overloads return a text exactly for the magnitudes below
    [10^14]; that text round-trips, and every other value makes the
    first store outside the buffer, at offset [-1]. *)
Theorem ToString_64bit_domain :
  (forall v : Z, in_signed 64 v ->
     (- 100 ^ 7 < v < 100 ^ 7 -> reparse (ToString_int64 v) = Some v) /\
     (v <= - 100 ^ 7 \/ 100 ^ 7 <= v -> ToString_int64 v = OutOfBounds (-1))) /\
  (forall v : Z, in_unsigned 64 v ->
     (v < 100 ^ 7 -> reparse (ToString_uint64 v) = Some v) /\
     (100 ^ 7 <= v -> ToString_uint64 v = OutOfBounds (-1))).
Proof.
  split; intros v Hv; split; intros Hr.
  - apply reparse_canonical, ToString_signed_text; [lia | exact Hv | exact Hr].
  - apply ToString_signed_overflow; [lia | exact Hv | exact Hr].
  - apply reparse_canonical, ToString_unsigned_text; [lia | exact Hv | exact Hr].
  - apply ToString_unsigned_overflow; [lia | exact Hv | exact Hr].
Qed.

Lemma ToString_64bit_domain_witness :
  reparse (ToString_int64 (-99999999999999)) = Some (-99999999999999) /\
  ToString_int64 9223372036854775807 = OutOfBounds (-1) /\
  reparse (ToString_uint64 99999999999999) = Some 99999999999999 /\
  ToString_uint64 18446744073709551615 = OutOfBounds (-1).
Proof.
  destruct ToString_64bit_domain as [HS HU].
  split_and!.
  - apply HS; [unfold in_signed; lia | lia].
  - apply HS; [unfold in_signed; lia | lia].
  - apply HU; [unfold in_unsigned; lia | lia].
  - apply HU; [unfold in_unsigned; lia | lia].
Defined.

(** *** The overloads against each other *)

Lemma pair_loop_top_range (a top it : Z) (buf : buffer) :
  0 <= a ->
  pair_loop itostr_fuel a (STRING_UTILS_ITOSTR_BUFFER_SIZE - 2) fresh_buf = Ok (top, it, buf) ->
  0 <= top < 100.
Proof.
  intros Ha Hloop.
  destruct (Z_lt_le_dec a (100 ^ 7)) as [Hfit|Hbig].
  - destruct (magnitude_text a ltac:(lia))
      as (n & top' & low & buf' & txt & Hl & _ & _ & Htop & _).
    rewrite Hl in Hloop. inversion Hloop; subst. exact Htop.
  - destruct (magnitude_overflow a Hbig) as [Hl | (top' & buf' & Hl & Htop)];
      rewrite Hl in Hloop; [discriminate|].
    inversion Hloop; subst. exact Htop.
Qed.

Lemma ToString_unsigned_magnitude (w v : Z) :
  8 <= w -> in_unsigned w v ->
  ToString_unsigned w v = magnitude_text_of false v.
Proof.
  intros Hw Hin. unfold ToString_unsigned, magnitude_text_of.
  rewrite unsigned_loop_pair_loop by assumption.
  assert (H256 : 256 <= 2 ^ w).
  { change 256 with (2 ^ 8). apply pow2_at_least. lia. }
  destruct (pair_loop itostr_fuel v (STRING_UTILS_ITOSTR_BUFFER_SIZE - 2) fresh_buf)
    as [[[top it] buf]| | |] eqn:Hloop; try reflexivity.
  pose proof (pair_loop_top_range v top it buf ltac:(unfold in_unsigned in Hin; lia) Hloop).
  simpl. rewrite wrap_unsigned_id by (unfold in_unsigned; lia). reflexivity.
Qed.

Lemma ToString_signed_magnitude (w v : Z) :
  9 <= w -> in_signed w v ->
  ToString_signed w v = magnitude_text_of (v <? 0) (Z.abs v).
Proof.
  intros Hw Hin. unfold ToString_signed, magnitude_text_of.
  assert (H256 : 256 <= 2 ^ (w - 1)).
  { change 256 with (2 ^ 8). apply pow2_at_least. lia. }
  destruct (Z.geb_spec v 0) as [Hpos|Hneg]; destruct (Z.ltb_spec v 0); try lia.
  - pose proof (signed_loop_pair_loop w 1 itostr_fuel v
                  (STRING_UTILS_ITOSTR_BUFFER_SIZE - 2) fresh_buf Hw
                  ltac:(left; reflexivity) ltac:(lia)) as Href.
    rewrite !Z.mul_1_l in Href. change (2 * 1) with 2 in Href.
    rewrite (Href Hin). clear Href.
    rewrite Z.abs_eq by lia.
    destruct (pair_loop itostr_fuel v (STRING_UTILS_ITOSTR_BUFFER_SIZE - 2) fresh_buf)
      as [[[top it] buf]| | |] eqn:Hloop; try reflexivity.
    pose proof (pair_loop_top_range v top it buf ltac:(lia) Hloop).
    simpl. rewrite !Z.mul_1_l.
    rewrite wrap_signed_id by (unfold in_signed; lia). reflexivity.
  - pose proof (signed_loop_pair_loop w (-1) itostr_fuel (- v)
                  (STRING_UTILS_ITOSTR_BUFFER_SIZE - 2) fresh_buf Hw
                  ltac:(right; reflexivity) ltac:(lia)) as Href.
    replace (-1 * - v) with v in Href by lia. change (2 * -1) with (-2) in Href.
    rewrite (Href Hin). clear Href.
    rewrite Z.abs_neq by lia.
    destruct (pair_loop itostr_fuel (- v) (STRING_UTILS_ITOSTR_BUFFER_SIZE - 2) fresh_buf)
      as [[[top it] buf]| | |] eqn:Hloop; try reflexivity.
    pose proof (pair_loop_top_range (- v) top it buf ltac:(lia) Hloop).
    simpl.
    replace (-2 * (-1 * top)) with (2 * top) by lia.
    rewrite wrap_signed_id by (unfold in_signed; lia).
    replace (-1 * top) with (- top) by lia. reflexivity.
Qed.

Lemma in_signed_32_64 (v : Z) : in_signed 32 v -> in_signed 64 v.
Proof. unfold in_signed. lia. Qed.

Lemma in_unsigned_32_64 (v : Z) : in_unsigned 32 v -> in_unsigned 64 v.
Proof. unfold in_unsigned. lia. Qed.

(** The four overloads agree wherever their argument types overlap:
    widening an [int32] to [int64] or a [uint32] to [uint64], or reading
    a non-negative [int32] as [uint32], does not change the text. *)
Theorem ToString_overloads_agree :
  (forall v : Z, in_signed 32 v -> ToString_int64 v = ToString_int32 v) /\
  (forall v : Z, in_unsigned 32 v -> ToString_uint64 v = ToString_uint32 v) /\
  (forall v : Z, in_signed 32 v -> 0 <= v -> ToString_uint32 v = ToString_int32 v) /\
  (forall v : Z, in_signed 64 v -> 0 <= v -> ToString_uint64 v = ToString_int64 v).
Proof.
  unfold ToString_int32, ToString_int64, ToString_uint32, ToString_uint64.
  split_and!.
  - intros v Hv.
    rewrite !ToString_signed_magnitude by (try lia; auto using in_signed_32_64).
    reflexivity.
  - intros v Hv.
    rewrite !ToString_unsigned_magnitude by (try lia; auto using in_unsigned_32_64).
    reflexivity.
  - intros v Hv Hpos.
    rewrite ToString_signed_magnitude by (try lia; assumption).
    rewrite ToString_unsigned_magnitude by (try lia; unfold in_signed, in_unsigned in *; lia).
    destruct (Z.ltb_spec v 0); [lia|]. rewrite Z.abs_eq by lia. reflexivity.
  - intros v Hv Hpos.
    rewrite ToString_signed_magnitude by (try lia; assumption).
    rewrite ToString_unsigned_magnitude by (try lia; unfold in_signed, in_unsigned in *; lia).
    destruct (Z.ltb_spec v 0); [lia|]. rewrite Z.abs_eq by lia. reflexivity.
Qed.

Lemma ToString_overloads_agree_witness :
  ToString_int64 (-2147483648) = ToString_int32 (-2147483648) /\
  ToString_uint64 4294967295 = ToString_uint32 4294967295 /\
  ToString_uint32 2147483647 = ToString_int32 2147483647 /\
  ToString_uint64 9223372036854775807 = ToString_int64 9223372036854775807.
Proof.
  destruct ToString_overloads_agree as (H1 & H2 & H3 & H4).
  split_and!.
  - apply H1. unfold in_signed. lia.
  - apply H2. unfold in_unsigned. lia.
  - apply H3; [unfold in_signed; lia | lia].
  - apply H4; [unfold in_signed; lia | lia].
Defined.

(** Different values have different texts. *)
Theorem ToString_32bit_injective :
  (forall v1 v2 : Z, in_signed 32 v1 -> in_signed 32 v2 ->
     v1 <> v2 -> ToString_int32 v1 <> ToString_int32 v2) /\
  (forall v1 v2 : Z, in_unsigned 32 v1 -> in_unsigned 32 v2 ->
     v1 <> v2 -> ToString_uint32 v1 <> ToString_uint32 v2).
Proof.
  split; intros v1 v2 H1 H2 Hne E; apply Hne.
  - assert (R1 : reparse (ToString_int32 v1) = Some v1).
    { apply reparse_canonical, ToString_signed_text; [lia | exact H1 | apply int32_fits, H1]. }
    assert (R2 : reparse (ToString_int32 v2) = Some v2).
    { apply reparse_canonical, ToString_signed_text; [lia | exact H2 | apply int32_fits, H2]. }
    rewrite E in R1. congruence.
  - assert (R1 : reparse (ToString_uint32 v1) = Some v1).
    { apply reparse_canonical, ToString_unsigned_text; [lia | exact H1 | apply uint32_fits, H1]. }
    assert (R2 : reparse (ToString_uint32 v2) = Some v2).
    { apply reparse_canonical, ToString_unsigned_text; [lia | exact H2 | apply uint32_fits, H2]. }
    rewrite E in R1. congruence.
Qed.

Lemma ToString_32bit_injective_witness :
  ToString_int32 5 <> ToString_int32 (-5) /\
  ToString_uint32 0 <> ToString_uint32 4294967295.
Proof.
  split.
  - apply (proj1 ToString_32bit_injective); [unfold in_signed; lia .. | lia].
  - apply (proj2 ToString_32bit_injective); [unfold in_unsigned; lia .. | lia].
Defined.

(** *** How long the text is *)

Lemma digit_of_range (c : ascii) (d : Z) : digit_of c = Some d -> 0 <= d <= 9.
Proof.
  unfold digit_of.
  destruct (Z.leb_spec 48 (Z.of_nat (nat_of_ascii c)));
    destruct (Z.leb_spec (Z.of_nat (nat_of_ascii c)) 57); simpl; intros Hd;
    inversion Hd; lia.
Qed.

Lemma digit_of_zero (c : ascii) : digit_of c = Some 0 -> c = "0"%char.
Proof.
  unfold digit_of.
  destruct (Z.leb_spec 48 (Z.of_nat (nat_of_ascii c)));
    destruct (Z.leb_spec (Z.of_nat (nat_of_ascii c)) 57); simpl; intros Hd;
    inversion Hd.
  assert (E : nat_of_ascii c = 48%nat) by lia.
  rewrite <- (ascii_nat_embedding c), E. reflexivity.
Qed.

Lemma parse_digits_lower (ds : list ascii) (acc r : Z) :
  0 <= acc -> parse_digits acc ds = Some r ->
  acc * 10 ^ Z.of_nat (length ds) <= r.
Proof.
  revert acc. induction ds as [|c ds IH]; intros acc Hacc Hp; simpl in Hp.
  - inversion Hp; subst. simpl. lia.
  - destruct (digit_of c) as [d|] eqn:Hd; [|discriminate].
    pose proof (digit_of_range c d Hd) as Hr.
    specialize (IH (acc * 10 + d) ltac:(lia) Hp).
    replace (Z.of_nat (length (c :: ds))) with (Z.succ (Z.of_nat (length ds)))
      by (simpl; lia).
    rewrite Z.pow_succ_r by lia.
    assert (0 <= 10 ^ Z.of_nat (length ds)) by (apply Z.pow_nonneg; lia).
    nia.
Qed.

(** A canonical text of a value below [10^k] in magnitude has at most
    [k] digits. *)
Lemma canonical_length (v : Z) (s : list ascii) (k : nat) :
  canonical_decimal v s ->
  (1 <= k)%nat ->
  Z.abs v < 10 ^ Z.of_nat k ->
  (length s <= k + (if (v <? 0)%Z then 1 else 0))%nat.
Proof.
  intros (ds & -> & Hne & Hp & Hz) Hk Hv.
  assert (Hds : (length ds <= k)%nat).
  { destruct ds as [|c ds]; [congruence|].
    simpl in Hp. destruct (digit_of c) as [d|] eqn:Hd; [|discriminate].
    pose proof (digit_of_range c d Hd) as Hr.
    destruct (Z.eq_dec d 0) as [->|Hd0].
    - apply digit_of_zero in Hd. subst c.
      specialize (Hz eq_refl). inversion Hz; subst. simpl. lia.
    - pose proof (parse_digits_lower ds (0 * 10 + d) (Z.abs v) ltac:(lia) Hp) as Hlow.
      destruct (Nat.le_gt_cases (length (c :: ds)) k) as [|Hlong]; [assumption|].
      exfalso. simpl in Hlong.
      assert (Hpow : 10 ^ Z.of_nat k <= 10 ^ Z.of_nat (length ds)).
      { apply Z.pow_le_mono_r; lia. }
      nia. }
  rewrite length_app. destruct (v <? 0); simpl; lia.
Qed.

(** The text of an [int32] has at most 11 characters and that of a
    [uint32] at most 10: both stay inside the 15 cells of the buffer. *)
Theorem ToString_32bit_length :
  (forall v : Z, in_signed 32 v ->
     exists s : list ascii, ToString_int32 v = Ok s /\ (1 <= length s <= 11)%nat) /\
  (forall v : Z, in_unsigned 32 v ->
     exists s : list ascii, ToString_uint32 v = Ok s /\ (1 <= length s <= 10)%nat).
Proof.
  split; intros v Hv.
  - destruct (ToString_signed_text 32 v ltac:(lia) Hv (int32_fits v Hv)) as (s & Hs & Hc).
    exists s. split; [exact Hs|].
    pose proof (canonical_length v s 10 Hc ltac:(lia)
                  ltac:(unfold in_signed in Hv; lia)) as Hlen.
    destruct Hc as (ds & -> & Hne & _).
    rewrite length_app in *. destruct ds; [congruence|].
    destruct (v <? 0); simpl in *; lia.
  - destruct (ToString_unsigned_text 32 v ltac:(lia) Hv (uint32_fits v Hv)) as (s & Hs & Hc).
    exists s. split; [exact Hs|].
    pose proof (canonical_length v s 10 Hc ltac:(lia)
                  ltac:(unfold in_unsigned in Hv; lia)) as Hlen.
    destruct Hc as (ds & -> & Hne & _).
    rewrite length_app in *. destruct ds; [congruence|].
    destruct (Z.ltb_spec v 0); [unfold in_unsigned in Hv; lia|].
    simpl in *. lia.
Qed.

Lemma ToString_32bit_length_witness :
  (exists s : list ascii,
     ToString_int32 (-2147483648) = Ok s /\ (1 <= length s <= 11)%nat) /\
  (exists s : list ascii,
     ToString_uint32 4294967295 = Ok s /\ (1 <= length s <= 10)%nat).
Proof.
  split.
  - apply (proj1 ToString_32bit_length). unfold in_signed. lia.
  - apply (proj2 ToString_32bit_length). unfold in_unsigned. lia.
Defined.

End ItostrFacts.

(** ** UTF-8 to UTF-16 *)

Section Utf8Facts.

Import Utf8.

(** *** The first loop against the specification's words *)

Lemma lead_sequence_length (b : byte) :
  lead (byte_val b) =
  match sequence_length b with
  | Some n => Some (Z.land (byte_val b) (Z.ones (payload_bits n)), pred n)
  | None => None
  end.
Proof. destruct b; reflexivity. Qed.

Lemma continuation_test (b : byte) :
  (byte_val b <? 0x80) || (0xBF <? byte_val b) = negb (is_continuation b).
Proof. destruct b; reflexivity. Qed.

Lemma shift_add_is_shift_in (uni : Z) (c : byte) :
  Z.shiftl uni 6 + Z.land (byte_val c) 0x3F = shift_in uni c.
Proof.
  unfold shift_in.
  assert (H : Z.land (Z.shiftl uni 6) (Z.land (byte_val c) 0x3F) = 0).
  { apply Z.bits_inj'. intros i Hi.
    rewrite !Z.land_spec, Z.bits_0.
    destruct (Z.lt_ge_cases i 6) as [Hlow|Hhigh].
    - rewrite Z.shiftl_spec_low by lia. reflexivity.
    - replace (Z.testbit 0x3F i) with false.
      + rewrite !andb_false_r. reflexivity.
      + symmetry. change 0x3F with (Z.ones 6). apply Z.ones_spec_high. lia. }
  rewrite Z.add_nocarry_lxor by exact H. apply Z.lxor_lor. exact H.
Qed.

Lemma continuation_complete (conts rest : list byte) (uni : Z) :
  all_continuation conts ->
  continuation (length conts) uni (conts ++ rest) = Some (fold_left shift_in conts uni, rest).
Proof.
  intros Hc. revert uni.
  induction Hc as [|c conts Hc _ IH]; intros uni; simpl; [reflexivity|].
  rewrite continuation_test, Hc. simpl.
  rewrite shift_add_is_shift_in. apply IH.
Qed.

Lemma continuation_short (todo : nat) (conts rest : list byte) (uni : Z) :
  all_continuation conts ->
  (length conts < todo)%nat ->
  match rest with
  | [] => True
  | c :: _ => is_continuation c = false
  end ->
  continuation todo uni (conts ++ rest) = None.
Proof.
  intros Hc. revert todo uni.
  induction Hc as [|c conts Hc _ IH]; intros todo uni Hlen Hrest; simpl in *.
  - destruct todo as [|todo]; [lia|]. simpl.
    destruct rest as [|c rest]; [reflexivity|].
    rewrite continuation_test, Hrest. reflexivity.
  - destruct todo as [|todo]; [lia|]. simpl.
    rewrite continuation_test, Hc. simpl. apply IH; [lia | exact Hrest].
Qed.

Lemma continuation_inv (todo : nat) (uni : Z) (bytes : list byte) :
  match continuation todo uni bytes with
  | Some (uni', rest) =>
      exists conts : list byte,
        bytes = conts ++ rest /\ length conts = todo /\ all_continuation conts /\
        uni' = fold_left shift_in conts uni
  | None =>
      exists conts rest : list byte,
        bytes = conts ++ rest /\ (length conts < todo)%nat /\ all_continuation conts /\
        match rest with
        | [] => True
        | c :: _ => is_continuation c = false
        end
  end.
Proof.
  revert uni bytes. induction todo as [|todo IH]; intros uni bytes; simpl.
  - exists []. split_and!; try reflexivity. constructor.
  - destruct bytes as [|b bytes].
    + exists [], []. split_and!; try reflexivity; [simpl; lia | constructor].
    + rewrite continuation_test.
      destruct (is_continuation b) eqn:Hb; simpl.
      * rewrite shift_add_is_shift_in.
        specialize (IH (shift_in uni b) bytes).
        destruct (continuation todo (shift_in uni b) bytes) as [[uni' rest]|].
        -- destruct IH as (conts & -> & Hlen & Hall & ->).
           exists (b :: conts). split_and!; try reflexivity.
           ++ simpl. lia.
           ++ constructor; assumption.
        -- destruct IH as (conts & rest & -> & Hlen & Hall & Hrest).
           exists (b :: conts), rest. split_and!; try reflexivity.
           ++ simpl. lia.
           ++ constructor; assumption.
           ++ exact Hrest.
      * exists [], (b :: bytes). split_and!; try reflexivity.
        -- simpl. lia.
        -- constructor.
        -- exact Hb.
Qed.

Lemma scalar_test (uni : Z) :
  ((0xD800 <=? uni) && (uni <=? 0xDFFF)) || (0x10FFFF <? uni) = negb (is_scalar uni).
Proof.
  unfold is_scalar.
  destruct (0xD800 <=? uni), (uni <=? 0xDFFF); simpl;
    destruct (Z.ltb_spec 0x10FFFF uni), (Z.leb_spec uni 0x10FFFF); simpl; try reflexivity; lia.
Qed.

Lemma decode_loop_good (fuel : nat) (leading : byte) (conts rest : list byte)
      (cp : Z) (unicode : list Z) :
  good_sequence leading conts cp ->
  decode_loop (S fuel) (leading :: conts ++ rest) unicode =
  decode_loop fuel rest (unicode ++ [cp]).
Proof.
  intros (n & Hn & Hlen & Hall & -> & Hs). simpl.
  rewrite lead_sequence_length, Hn, <- Hlen.
  rewrite continuation_complete by exact Hall.
  fold (assemble n leading conts).
  rewrite scalar_test, Hs. reflexivity.
Qed.

Lemma decode_loop_well_formed (bytes : list byte) (cps : list Z) :
  well_formed bytes cps ->
  forall (fuel : nat) (unicode : list Z),
    (length bytes <= fuel)%nat ->
    decode_loop fuel bytes unicode = Decoded (unicode ++ cps).
Proof.
  induction 1 as [|leading conts cp rest cps Hg _ IH]; intros fuel unicode Hfuel.
  - destruct fuel; simpl; rewrite app_nil_r; reflexivity.
  - simpl in Hfuel. rewrite length_app in Hfuel.
    destruct fuel as [|fuel]; [lia|].
    rewrite (decode_loop_good fuel leading conts rest cp unicode Hg).
    rewrite IH by lia. rewrite <- app_assoc. reflexivity.
Qed.

Lemma decode_loop_malformed (bytes : list byte) :
  malformed bytes ->
  forall (fuel : nat) (unicode : list Z),
    (length bytes <= fuel)%nat ->
    decode_loop fuel bytes unicode = NotUtf8.
Proof.
  induction 1 as [b rest Hb
                 |leading n conts rest Hn Hlen Hall Hrest
                 |leading n conts rest Hn Hlen Hall Hs
                 |leading conts cp rest Hg _ IH];
    intros fuel unicode Hfuel; simpl in Hfuel;
    (destruct fuel as [|fuel]; [lia|]).
  - simpl. rewrite lead_sequence_length, Hb. reflexivity.
  - simpl. rewrite lead_sequence_length, Hn.
    rewrite continuation_short; try assumption. reflexivity.
  - simpl. rewrite lead_sequence_length, Hn, <- Hlen.
    rewrite continuation_complete by exact Hall.
    fold (assemble n leading conts).
    rewrite scalar_test, Hs. reflexivity.
  - rewrite (decode_loop_good fuel leading conts rest cp unicode Hg).
    apply IH. rewrite length_app in Hfuel. lia.
Qed.

(** Every input is one or the other, and the first loop says which. *)
Lemma decode_loop_classifies (fuel : nat) (bytes : list byte) (unicode : list Z) :
  (length bytes <= fuel)%nat ->
  (exists cps : list Z,
     well_formed bytes cps /\ decode_loop fuel bytes unicode = Decoded (unicode ++ cps)) \/
  (malformed bytes /\ decode_loop fuel bytes unicode = NotUtf8).
Proof.
  revert bytes unicode.
  induction fuel as [|fuel IH]; intros bytes unicode Hfuel.
  - destruct bytes; [|simpl in Hfuel; lia].
    left. exists []. split; [constructor | simpl; rewrite app_nil_r; reflexivity].
  - destruct bytes as [|b bytes].
    { left. exists []. split; [constructor | simpl; rewrite app_nil_r; reflexivity]. }
    simpl in Hfuel. simpl decode_loop.
    rewrite lead_sequence_length.
    destruct (sequence_length b) as [n|] eqn:Hn.
    2:{ right. split; [apply bad_lead; exact Hn | reflexivity]. }
    pose proof (continuation_inv (pred n)
                  (Z.land (byte_val b) (Z.ones (payload_bits n))) bytes) as Hinv.
    destruct (continuation (pred n) (Z.land (byte_val b) (Z.ones (payload_bits n))) bytes)
      as [[uni rest]|].
    + destruct Hinv as (conts & -> & Hlen & Hall & ->).
      fold (assemble n b conts).
      rewrite scalar_test.
      destruct (is_scalar (assemble n b conts)) eqn:Hs; simpl.
      * assert (Hg : good_sequence b conts (assemble n b conts)).
        { exists n. split_and!; auto. }
        rewrite length_app in Hfuel.
        destruct (IH rest (unicode ++ [assemble n b conts]) ltac:(lia))
          as [(cps & Hwf & Hdec) | (Hmal & Hdec)].
        -- left. exists (assemble n b conts :: cps). split.
           ++ constructor; assumption.
           ++ rewrite Hdec, <- app_assoc. reflexivity.
        -- right. split; [|exact Hdec].
           eapply bad_later; eassumption.
      * right. split; [|reflexivity].
        eapply bad_code_point; eauto.
    + destruct Hinv as (conts & rest & -> & Hlen & Hall & Hrest).
      right. split; [|reflexivity].
      eapply bad_continuation; eauto.
Qed.

Lemma decode_well_formed (from : list byte) (cps : list Z) :
  well_formed from cps -> decode from = Decoded cps.
Proof.
  intros H. unfold decode.
  rewrite (decode_loop_well_formed from cps H) by lia. reflexivity.
Qed.

Lemma decode_malformed (from : list byte) :
  malformed from -> decode from = NotUtf8.
Proof. intros H. unfold decode. apply decode_loop_malformed; [exact H | lia]. Qed.

Lemma decode_rejects_only_malformed (from : list byte) :
  decode from = NotUtf8 -> malformed from.
Proof.
  unfold decode. intros H.
  destruct (decode_loop_classifies (length from) from [] ltac:(lia))
    as [(cps & _ & Hdec) | (Hmal & _)]; [congruence | exact Hmal].
Qed.

Lemma decode_never_out_of_fuel (from : list byte) : decode from <> DecodeFuel.
Proof.
  unfold decode.
  destruct (decode_loop_classifies (length from) from [] ltac:(lia))
    as [(cps & _ & Hdec) | (_ & Hdec)]; congruence.
Qed.

(** *** The second and third loops *)

Lemma at_index_lookup (unicode : list Z) (i : nat) (u : Z) :
  unicode !! i = Some u -> at_index unicode i = Ok u.
Proof. unfold at_index. intros ->. reflexivity. Qed.

Lemma at_index_count (unicode : list Z) :
  at_index unicode (length unicode) = OutOfBounds (Z.of_nat (length unicode)).
Proof.
  unfold at_index. rewrite (lookup_ge_None_2 unicode (length unicode)) by lia.
  reflexivity.
Qed.

Lemma count_loop_bmp (unicode : list Z) :
  Forall (fun u => u <= 0xFFFF) unicode ->
  forall (fuel i : nat),
    (i <= length unicode)%nat ->
    (length unicode - i <= fuel)%nat ->
    count_loop fuel unicode i (length unicode) = Ok (length unicode).
Proof.
  intros Hall fuel. induction fuel as [|fuel IH]; intros i Hi Hfuel.
  - simpl. destruct (Nat.ltb_spec i (length unicode)); [lia | reflexivity].
  - simpl. destruct (Nat.ltb_spec i (length unicode)) as [Hlt|]; [|reflexivity].
    destruct (lookup_lt_is_Some_2 unicode i Hlt) as [u Hu].
    rewrite (at_index_lookup _ _ _ Hu). simpl.
    assert (Hsmall : u <= 0xFFFF).
    { rewrite Forall_lookup in Hall. exact (Hall i u Hu). }
    destruct (Z.ltb_spec 0xFFFF u); [lia|].
    apply IH; lia.
Qed.

(** Once [length] has been raised, or while a code point above [0xFFFF]
    is still ahead, the loop runs on to [i = Count] and indexes
    [unicode] there. *)
Lemma count_loop_raised (unicode : list Z) (fuel i len : nat) :
  (i <= length unicode)%nat ->
  (length unicode <= len)%nat ->
  (length unicode < len)%nat \/ Exists (fun u => 0xFFFF < u) (drop i unicode) ->
  (length unicode - i < fuel)%nat ->
  count_loop fuel unicode i len = OutOfBounds (Z.of_nat (length unicode)).
Proof.
  revert i len. induction fuel as [|fuel IH]; intros i len Hi Hlen Hwhy Hfuel; [lia|].
  simpl.
  destruct (Nat.eq_dec i (length unicode)) as [->|Hne].
  - assert (Hraised : (length unicode < len)%nat).
    { destruct Hwhy as [Hr|Hr]; [exact Hr|].
      rewrite drop_all in Hr. inversion Hr. }
    destruct (Nat.ltb_spec (length unicode) len); [|lia].
    rewrite at_index_count. reflexivity.
  - destruct (Nat.ltb_spec i len); [|lia].
    destruct (lookup_lt_is_Some_2 unicode i ltac:(lia)) as [u Hu].
    rewrite (at_index_lookup _ _ _ Hu). simpl.
    apply IH; try lia.
    + destruct (0xFFFF <? u); lia.
    + destruct (Z.ltb_spec 0xFFFF u) as [Hbig|Hsmall]; [left; lia|].
      destruct Hwhy as [Hr|Hr]; [left; exact Hr|].
      right. rewrite (drop_S _ _ _ Hu) in Hr.
      inversion Hr as [? ? Hhd | ? ? Htl]; subst; [lia | exact Htl].
Qed.

Lemma to_Char_small (u : Z) : 0 <= u <= 0xFFFF -> to_Char u = u.
Proof. intros Hu. unfold to_Char. apply wrap_unsigned_id. unfold in_unsigned. lia. Qed.

Lemma copy_loop_bmp (unicode to : list Z) :
  Forall (fun u => 0 <= u <= 0xFFFF) unicode ->
  (length unicode <= length to)%nat ->
  forall (fuel i : nat),
    (i <= length unicode)%nat ->
    (length unicode - i <= fuel)%nat ->
    copy_loop fuel unicode (take i unicode ++ drop i to) i (length unicode) =
    Ok (unicode ++ drop (length unicode) to).
Proof.
  intros Hall Hcap fuel. induction fuel as [|fuel IH]; intros i Hi Hfuel.
  - assert (i = length unicode) by lia. subst i.
    simpl. rewrite Nat.ltb_irrefl, firstn_all. reflexivity.
  - simpl. destruct (Nat.ltb_spec i (length unicode)) as [Hlt|Hge].
    2:{ assert (i = length unicode) by lia. subst i. rewrite firstn_all. reflexivity. }
    destruct (lookup_lt_is_Some_2 unicode i Hlt) as [u Hu].
    rewrite (at_index_lookup _ _ _ Hu). simpl.
    assert (Hsmall : 0 <= u <= 0xFFFF).
    { rewrite Forall_lookup in Hall. exact (Hall i u Hu). }
    destruct (Z.leb_spec u 0xFFFF); [|lia].
    destruct (lookup_lt_is_Some_2 to i ltac:(lia)) as [old Hold].
    assert (Hti : length (take i unicode) = i) by (rewrite length_take; lia).
    unfold assign.
    rewrite lookup_app_r by lia.
    rewrite Hti, Nat.sub_diag, (drop_S _ _ _ Hold). simpl.
    rewrite to_Char_small by exact Hsmall.
    rewrite insert_app_r_alt by lia.
    rewrite Hti, Nat.sub_diag. simpl.
    replace (take i unicode ++ u :: drop (S i) to)
      with (take (S i) unicode ++ drop (S i) to).
    + apply IH; lia.
    + rewrite (take_S_r _ _ _ Hu), <- app_assoc. reflexivity.
Qed.

Lemma shift_in_nonneg (acc : Z) (c : byte) : 0 <= acc -> 0 <= shift_in acc c.
Proof.
  intros Hacc. unfold shift_in. apply Z.lor_nonneg. split.
  - apply Z.shiftl_nonneg. exact Hacc.
  - apply Z.land_nonneg. right. lia.
Qed.

Lemma assemble_nonneg (n : nat) (leading : byte) (conts : list byte) :
  0 <= assemble n leading conts.
Proof.
  unfold assemble.
  assert (H0 : 0 <= Z.land (byte_val leading) (Z.ones (payload_bits n))).
  { apply Z.land_nonneg. left. unfold byte_val. lia. }
  revert H0. generalize (Z.land (byte_val leading) (Z.ones (payload_bits n))).
  induction conts as [|c conts IH]; intros acc Hacc; simpl; [exact Hacc|].
  apply IH, shift_in_nonneg, Hacc.
Qed.

Lemma well_formed_nonneg (from : list byte) (cps : list Z) :
  well_formed from cps -> Forall (fun u => 0 <= u) cps.
Proof.
  induction 1 as [|leading conts cp rest cps (n & _ & _ & _ & -> & _) _ IH];
    constructor; [apply assemble_nonneg | exact IH].
Qed.

(** *** The whole function *)

Lemma ConvertUTF82UTF16_rejects (from : list byte) (to : list Z) :
  malformed from ->
  ConvertUTF82UTF16 from to = Ok (Converted to 0 [not_utf8]).
Proof.
  intros H. unfold ConvertUTF82UTF16. rewrite (decode_malformed from H). reflexivity.
Qed.

Lemma ConvertUTF82UTF16_logged (from : list byte) (to : list Z) (r : converted) :
  ConvertUTF82UTF16 from to = Ok r -> logged r <> [] -> malformed from.
Proof.
  unfold ConvertUTF82UTF16. intros Hr Hlog.
  destruct (decode from) as [unicode| |] eqn:Hd.
  - destruct (count_loop (S (length unicode)) unicode 0 (length unicode)) as [len| | |];
      simpl in Hr; try discriminate.
    destruct (copy_loop len unicode to 0 len); simpl in Hr; try discriminate.
    inversion Hr; subst. simpl in Hlog. congruence.
  - apply decode_rejects_only_malformed, Hd.
  - discriminate.
Qed.

Lemma ConvertUTF82UTF16_bmp_units (from : list byte) (cps to : list Z) :
  well_formed from cps ->
  Forall (fun u => u <= 0xFFFF) cps ->
  (length cps <= length to)%nat ->
  ConvertUTF82UTF16 from to =
  Ok (Converted (cps ++ drop (length cps) to) (Z.of_nat (length cps)) []).
Proof.
  intros Hwf Hbmp Hcap. unfold ConvertUTF82UTF16.
  rewrite (decode_well_formed from cps Hwf).
  rewrite count_loop_bmp by (assumption || lia). simpl.
  assert (Hrange : Forall (fun u => 0 <= u <= 0xFFFF) cps).
  { pose proof (well_formed_nonneg from cps Hwf) as Hnn.
    rewrite Forall_forall in *. intros u Hu. split; auto. }
  pose proof (copy_loop_bmp cps to Hrange Hcap (length cps) 0 ltac:(lia) ltac:(lia)) as Hcopy.
  change (take 0 cps ++ drop 0 to) with to in Hcopy.
  rewrite Hcopy. reflexivity.
Qed.

Lemma ConvertUTF82UTF16_supplementary (from : list byte) (cps to : list Z) :
  well_formed from cps ->
  Exists (fun u => 0xFFFF < u) cps ->
  ConvertUTF82UTF16 from to = OutOfBounds (Z.of_nat (length cps)).
Proof.
  intros Hwf Hbig. unfold ConvertUTF82UTF16.
  rewrite (decode_well_formed from cps Hwf).
  rewrite count_loop_raised; try lia; [reflexivity|].
  right. exact Hbig.
Qed.

Lemma ascii_well_formed (from : list byte) :
  Forall (fun b => byte_val b <= 0x7F) from ->
  well_formed from (map byte_val from).
Proof.
  induction 1 as [|b from Hb _ IH]; simpl; [constructor|].
  apply (wf_cons b [] (byte_val b) from (map byte_val from)); [|exact IH].
  exists 1%nat. revert Hb. destruct b; vm_compute; intros Hb;
    first [ exfalso; apply Hb; reflexivity
          | split_and!; try reflexivity; constructor ].
Qed.

(** *** Claims *)

Lemma lone_E2_malformed : malformed [xe2].
Proof.
  apply (bad_continuation xe2 3 [] []); try reflexivity; [simpl; lia | constructor].
Qed.

(** C2.  The code never produces a surrogate pair.  On the four bytes of
    U+1F600 the first loop decodes the code point, the counting loop
    raises its own bound to 2 and then indexes [unicode[1]], past the
    single decoded element.  The copying loop has two defects of its
    own: it indexes the code points by the output position ([unicode[2]]
    for the third unit of U+1F600 followed by ['A']), and it adds the
    surrogates onto what the caller's buffer held. *)
Theorem ConvertUTF82UTF16_surrogate_pair_lost :
  well_formed [xf0; x9f; x98; x80] [0x1F600] /\
  decode [xf0; x9f; x98; x80] = Decoded [0x1F600] /\
  utf16_units 0x1F600 = [0xD83D; 0xDE00] /\
  count_loop 2 [0x1F600] 0 1 = OutOfBounds 1 /\
  ConvertUTF82UTF16 [xf0; x9f; x98; x80] [0; 0] = OutOfBounds 1 /\
  copy_loop 3 [0x1F600; 0x41] [0; 0; 0] 0 3 = OutOfBounds 2 /\
  copy_loop 2 [0x1F600] [1; 1] 0 2 = Ok [0xD83E; 0xDE01].
Proof.
  split_and!; try (vm_compute; reflexivity).
  apply (wf_cons xf0 [x9f; x98; x80] 0x1F600 [] []); [|constructor].
  exists 4%nat. split_and!; try reflexivity.
  repeat constructor.
Qed.

(** C5, as stated, fails: the lone byte [0xE2] is malformed, the empty
    input is well-formed, and the caller is left with the same buffer and
    the same length after both. *)
Theorem ConvertUTF82UTF16_failure_not_distinct : ~ failure_is_distinct.
Proof.
  intros H.
  apply (H [xe2] [] [7; 7] lone_E2_malformed).
  - exists []. constructor.
  - vm_compute. reflexivity.
Qed.

(** C5, amended.  On every malformed input the function stops in the
    first loop, logs the one error, and leaves its caller exactly what
    the empty input leaves: the buffer as it was and a length of 0. *)
Theorem ConvertUTF82UTF16_failure_is_logged_only :
  forall (from : list byte) (to : list Z),
    malformed from ->
    exists r : converted,
      ConvertUTF82UTF16 from to = Ok r /\
      logged r = [not_utf8] /\
      visible (ConvertUTF82UTF16 from to) = visible (ConvertUTF82UTF16 [] to) /\
      visible (ConvertUTF82UTF16 from to) = Some (to, 0).
Proof.
  intros from to Hbad.
  rewrite (ConvertUTF82UTF16_rejects from to Hbad).
  eexists. split_and!; reflexivity.
Qed.

Lemma ConvertUTF82UTF16_failure_is_logged_only_witness :
  exists r : converted,
    ConvertUTF82UTF16 [xe2] [7; 7] = Ok r /\
    logged r = [not_utf8] /\
    visible (ConvertUTF82UTF16 [xe2] [7; 7]) = visible (ConvertUTF82UTF16 [] [7; 7]) /\
    visible (ConvertUTF82UTF16 [xe2] [7; 7]) = Some ([7; 7], 0).
Proof.
  apply (ConvertUTF82UTF16_failure_is_logged_only [xe2] [7; 7]).
  apply (bad_continuation xe2 3 [] []); try reflexivity; [simpl; lia | constructor].
Defined.

(** C10.  A rejected input leaves the output untouched: when the call
    logs the error, the input was malformed, the buffer is the caller's
    and the length is 0; every malformed input is rejected so; and a
    call that changed the buffer had validated the whole input first. *)
Theorem ConvertUTF82UTF16_rejection_writes_nothing :
  forall (from : list byte) (to : list Z),
    (malformed from -> ConvertUTF82UTF16 from to = Ok (Converted to 0 [not_utf8])) /\
    (forall r : converted,
       ConvertUTF82UTF16 from to = Ok r -> logged r <> [] ->
       malformed from /\ to_buffer r = to /\ toLength r = 0) /\
    (forall r : converted,
       ConvertUTF82UTF16 from to = Ok r -> to_buffer r <> to ->
       exists cps : list Z, well_formed from cps).
Proof.
  intros from to. split_and!.
  - apply ConvertUTF82UTF16_rejects.
  - intros r Hr Hlog.
    pose proof (ConvertUTF82UTF16_logged from to r Hr Hlog) as Hbad.
    rewrite (ConvertUTF82UTF16_rejects from to Hbad) in Hr.
    inversion Hr; subst. auto.
  - intros r Hr Hchanged.
    unfold decode.
    destruct (decode_loop_classifies (length from) from [] ltac:(lia))
      as [(cps & Hwf & _) | (Hbad & _)]; [exists cps; exact Hwf|].
    rewrite (ConvertUTF82UTF16_rejects from to Hbad) in Hr.
    inversion Hr; subst. simpl in Hchanged. congruence.
Qed.

Lemma ConvertUTF82UTF16_rejection_writes_nothing_witness :
  ConvertUTF82UTF16 [x41; xe2; x82] [7; 7] = Ok (Converted [7; 7] 0 [not_utf8]).
Proof.
  apply (proj1 (ConvertUTF82UTF16_rejection_writes_nothing [x41; xe2; x82] [7; 7])).
  apply (bad_later x41 [] 0x41 [xe2; x82]).
  - exists 1%nat. split_and!; try reflexivity. constructor.
  - apply (bad_continuation xe2 3 [x82] []); try reflexivity;
      [simpl; lia | repeat constructor].
Defined.

(** Input whose code points all fit one unit is converted as the
    specification says: one unit per code point, values unchanged, the
    length their number; ASCII input is the case of one byte per code
    point. *)
Theorem ConvertUTF82UTF16_one_unit_code_points :
  forall (from : list byte) (cps to : list Z),
    well_formed from cps ->
    Forall (fun u => u <= 0xFFFF) cps ->
    (length cps <= length to)%nat ->
    ConvertUTF82UTF16 from to =
      Ok (Converted (cps ++ drop (length cps) to) (Z.of_nat (length cps)) []) /\
    concat (map utf16_units cps) = cps.
Proof.
  intros from cps to Hwf Hbmp Hcap. split.
  - apply ConvertUTF82UTF16_bmp_units; assumption.
  - clear Hwf Hcap. induction Hbmp as [|u cps Hu _ IH]; simpl; [reflexivity|].
    unfold utf16_units at 1. destruct (Z.leb_spec u 0xFFFF); [|lia].
    simpl. rewrite IH. reflexivity.
Qed.

Lemma ConvertUTF82UTF16_one_unit_code_points_witness :
  ConvertUTF82UTF16 [xe2; x82; xac; x41] [9; 9; 9] =
    Ok (Converted ([0x20AC; 0x41] ++ drop 2 [9; 9; 9]) 2 []) /\
  concat (map utf16_units [0x20AC; 0x41]) = [0x20AC; 0x41].
Proof.
  apply ConvertUTF82UTF16_one_unit_code_points.
  - apply (wf_cons xe2 [x82; xac] 0x20AC [x41] [0x41]).
    + exists 3%nat. split_and!; try reflexivity. repeat constructor.
    + apply (wf_cons x41 [] 0x41 [] []); [|constructor].
      exists 1%nat. split_and!; try reflexivity. constructor.
  - repeat constructor; lia.
  - simpl. lia.
Defined.

Theorem ConvertUTF82UTF16_ascii :
  forall (from : list byte) (to : list Z),
    Forall (fun b => byte_val b <= 0x7F) from ->
    (length from <= length to)%nat ->
    ConvertUTF82UTF16 from to =
      Ok (Converted (map byte_val from ++ drop (length from) to)
                    (Z.of_nat (length from)) []).
Proof.
  intros from to Hascii Hcap.
  pose proof (ConvertUTF82UTF16_bmp_units from (map byte_val from) to
                (ascii_well_formed from Hascii)) as H.
  rewrite length_map in H. apply H; [|exact Hcap].
  rewrite Forall_map. eapply Forall_impl; [exact Hascii|].
  simpl. intros b Hb. lia.
Qed.

Lemma ConvertUTF82UTF16_ascii_witness :
  ConvertUTF82UTF16 [x48; x69] [0; 0; 0] =
    Ok (Converted (map byte_val [x48; x69] ++ drop 2 [0; 0; 0]) 2 []).
Proof.
  apply (ConvertUTF82UTF16_ascii [x48; x69] [0; 0; 0]).
  - repeat constructor; vm_compute; congruence.
  - simpl. lia.
Defined.

(** Well-formed input with a code point above [0xFFFF] never reaches the
    copying loop: the counting loop indexes [unicode] at [Count]. *)
Theorem ConvertUTF82UTF16_no_surrogate_pair :
  forall (from : list byte) (cps to : list Z),
    well_formed from cps ->
    Exists (fun u => 0xFFFF < u) cps ->
    ConvertUTF82UTF16 from to = OutOfBounds (Z.of_nat (length cps)).
Proof. exact ConvertUTF82UTF16_supplementary. Qed.

Lemma ConvertUTF82UTF16_no_surrogate_pair_witness :
  ConvertUTF82UTF16 [x41; xf0; x9f; x98; x80] [0; 0; 0] = OutOfBounds 2.
Proof.
  apply (ConvertUTF82UTF16_no_surrogate_pair [x41; xf0; x9f; x98; x80] [0x41; 0x1F600]).
  - apply (wf_cons x41 [] 0x41 [xf0; x9f; x98; x80] [0x1F600]).
    + exists 1%nat. split_and!; try reflexivity. constructor.
    + apply (wf_cons xf0 [x9f; x98; x80] 0x1F600 [] []); [|constructor].
      exists 4%nat. split_and!; try reflexivity. repeat constructor.
  - apply Exists_cons_tl, Exists_cons_hd. lia.
Defined.

(** *** What the first loop accepts *)

Lemma sequence_length_range (b : byte) (n : nat) :
  sequence_length b = Some n -> (1 <= n <= 4)%nat.
Proof.
  unfold sequence_length.
  repeat match goal with
         | |- context [if ?c then _ else _] => destruct c
         end; intros H; inversion H; lia.
Qed.

Lemma well_formed_functional (from : list byte) (cps1 cps2 : list Z) :
  well_formed from cps1 -> well_formed from cps2 -> cps1 = cps2.
Proof.
  intros H1 H2.
  pose proof (decode_well_formed from cps1 H1) as E1.
  pose proof (decode_well_formed from cps2 H2) as E2.
  congruence.
Qed.

(** The first loop accepts exactly the well-formed inputs, with their
    code points, and rejects exactly the malformed ones; every input is
    one or the other and none is both. *)
Theorem decode_accepts_exactly_well_formed :
  forall from : list byte,
    (forall cps : list Z, decode from = Decoded cps <-> well_formed from cps) /\
    (decode from = NotUtf8 <-> malformed from) /\
    (malformed from \/ exists cps : list Z, well_formed from cps) /\
    ~ (malformed from /\ exists cps : list Z, well_formed from cps).
Proof.
  intros from.
  pose proof (decode_loop_classifies (length from) from [] ltac:(lia)) as Hc.
  fold (decode from) in Hc.
  split_and!.
  - intros cps. split; [|apply decode_well_formed].
    intros Hd. destruct Hc as [(cps' & Hwf & Hd') | (_ & Hd')]; [|congruence].
    simpl in Hd'. assert (cps = cps') by congruence. subst. exact Hwf.
  - split; [apply decode_rejects_only_malformed | apply decode_malformed].
  - destruct Hc as [(cps & Hwf & _) | (Hbad & _)]; [right; exists cps; exact Hwf | left; exact Hbad].
  - intros (Hbad & cps & Hwf).
    pose proof (decode_malformed from Hbad). pose proof (decode_well_formed from cps Hwf).
    congruence.
Qed.

Lemma well_formed_scalars (from : list byte) (cps : list Z) :
  well_formed from cps ->
  Forall (fun cp => 0 <= cp <= 0x10FFFF /\ ~ (0xD800 <= cp <= 0xDFFF)) cps.
Proof.
  induction 1 as [|leading conts cp rest cps (n & _ & _ & _ & Hcp & Hs) _ IH];
    constructor; [|exact IH].
  pose proof (assemble_nonneg n leading conts) as Hnn. rewrite <- Hcp in Hnn.
  unfold is_scalar in Hs. apply andb_true_iff in Hs. destruct Hs as [Hsur Hmax].
  apply Z.leb_le in Hmax. apply negb_true_iff in Hsur.
  apply andb_false_iff in Hsur.
  split; [lia|]. intros [Hlo Hhi].
  destruct Hsur as [Hs|Hs]; [apply Z.leb_gt in Hs | apply Z.leb_gt in Hs]; lia.
Qed.

Lemma well_formed_lengths (from : list byte) (cps : list Z) :
  well_formed from cps ->
  (length cps <= length from <= 4 * length cps)%nat.
Proof.
  induction 1 as [|leading conts cp rest cps (n & Hn & Hlen & _) _ IH]; simpl; [lia|].
  pose proof (sequence_length_range leading n Hn).
  rewrite length_app. lia.
Qed.

(** Whatever the first loop accepts is a list of Unicode scalar values,
    each read from one to four bytes. *)
Theorem decode_gives_scalar_values :
  forall (from : list byte) (cps : list Z),
    decode from = Decoded cps ->
    Forall (fun cp => 0 <= cp <= 0x10FFFF /\ ~ (0xD800 <= cp <= 0xDFFF)) cps /\
    (length cps <= length from <= 4 * length cps)%nat.
Proof.
  intros from cps Hd.
  apply (proj1 (decode_accepts_exactly_well_formed from)) in Hd.
  split; [apply (well_formed_scalars from), Hd | apply well_formed_lengths, Hd].
Qed.

Lemma decode_gives_scalar_values_witness :
  Forall (fun cp => 0 <= cp <= 0x10FFFF /\ ~ (0xD800 <= cp <= 0xDFFF)) [0x41; 0x20AC; 0x1F600] /\
  (length [0x41; 0x20AC; 0x1F600]%Z
   <= length [x41; xe2; x82; xac; xf0; x9f; x98; x80]
   <= 4 * length [0x41; 0x20AC; 0x1F600]%Z)%nat.
Proof.
  apply (decode_gives_scalar_values [x41; xe2; x82; xac; xf0; x9f; x98; x80]).
  vm_compute. reflexivity.
Defined.

(** The loop has no test for the shortest form: after the leading bytes
    [0xC0] and [0xC1] every continuation byte is accepted, and the two
    bytes decode to a code point below [0x80], which one byte encodes;
    the conversion hands that unit to the caller. *)
Theorem decode_accepts_overlong_forms :
  forall c : byte,
    is_continuation c = true ->
    decode [xc0; c] = Decoded [byte_val c - 0x80] /\
    decode [xc1; c] = Decoded [byte_val c - 0x40] /\
    0 <= byte_val c - 0x80 < 0x40 /\
    (forall (u : Z) (to : list Z),
       ConvertUTF82UTF16 [xc0; c] (u :: to) = Ok (Converted (byte_val c - 0x80 :: to) 1 [])).
Proof.
  intros c Hc.
  assert (H0 : decode [xc0; c] = Decoded [byte_val c - 0x80]).
  { revert Hc. destruct c; vm_compute; intros Hc; first [discriminate | reflexivity]. }
  assert (Hr : 0 <= byte_val c - 0x80 < 0x40).
  { revert Hc. destruct c; vm_compute; intros Hc;
      first [discriminate | split; [intros E; discriminate E | reflexivity]]. }
  split_and!; try assumption; try lia.
  - revert Hc. destruct c; vm_compute; intros Hc; first [discriminate | reflexivity].
  - intros u to.
    assert (Hwf : well_formed [xc0; c] [byte_val c - 0x80]).
    { apply (proj1 (decode_accepts_exactly_well_formed [xc0; c])). exact H0. }
    rewrite (ConvertUTF82UTF16_bmp_units [xc0; c] [byte_val c - 0x80] (u :: to) Hwf).
    + reflexivity.
    + constructor; [lia | constructor].
    + simpl. lia.
Qed.

Lemma decode_accepts_overlong_forms_witness :
  decode [xc0; x80] = Decoded [byte_val x80 - 0x80] /\
  decode [xc1; x80] = Decoded [byte_val x80 - 0x40] /\
  0 <= byte_val x80 - 0x80 < 0x40 /\
  (forall (u : Z) (to : list Z),
     ConvertUTF82UTF16 [xc0; x80] (u :: to) = Ok (Converted (byte_val x80 - 0x80 :: to) 1 [])).
Proof. apply (decode_accepts_overlong_forms x80). reflexivity. Defined.

(** *** When the conversion succeeds *)

Lemma copy_loop_short (unicode to : list Z) :
  Forall (fun u => 0 <= u <= 0xFFFF) unicode ->
  (length to < length unicode)%nat ->
  forall (fuel i : nat),
    (i <= length to)%nat ->
    (length unicode - i <= fuel)%nat ->
    copy_loop fuel unicode (take i unicode ++ drop i to) i (length unicode) =
    OutOfBounds (Z.of_nat (length to)).
Proof.
  intros Hall Hcap fuel. induction fuel as [|fuel IH]; intros i Hi Hfuel; [lia|].
  simpl. destruct (Nat.ltb_spec i (length unicode)) as [Hlt|]; [|lia].
  destruct (lookup_lt_is_Some_2 unicode i Hlt) as [u Hu].
  rewrite (at_index_lookup _ _ _ Hu). simpl.
  assert (Hsmall : 0 <= u <= 0xFFFF).
  { rewrite Forall_lookup in Hall. exact (Hall i u Hu). }
  destruct (Z.leb_spec u 0xFFFF); [|lia].
  assert (Hti : length (take i unicode) = i) by (rewrite length_take; lia).
  unfold assign. rewrite lookup_app_r by lia. rewrite Hti, Nat.sub_diag.
  destruct (Nat.eq_dec i (length to)) as [->|Hne].
  - rewrite drop_all. reflexivity.
  - destruct (lookup_lt_is_Some_2 to i ltac:(lia)) as [old Hold].
    rewrite (drop_S _ _ _ Hold). simpl.
    rewrite to_Char_small by exact Hsmall.
    rewrite insert_app_r_alt by lia.
    rewrite Hti, Nat.sub_diag. simpl.
    replace (take i unicode ++ u :: drop (S i) to)
      with (take (S i) unicode ++ drop (S i) to).
    + apply IH; lia.
    + rewrite (take_S_r _ _ _ Hu), <- app_assoc. reflexivity.
Qed.

(** A call that returns without logging converted well-formed input
    whose code points all fit one unit, into a buffer that had room: the
    units are the code points, none of them a surrogate, and the rest of
    the buffer is as it was. *)
Theorem ConvertUTF82UTF16_success :
  forall (from : list byte) (to : list Z) (r : converted),
    ConvertUTF82UTF16 from to = Ok r ->
    logged r = [] ->
    exists cps : list Z,
      well_formed from cps /\
      Forall (fun u => 0 <= u <= 0xFFFF /\ ~ (0xD800 <= u <= 0xDFFF)) cps /\
      (length cps <= length to)%nat /\
      r = Converted (cps ++ drop (length cps) to) (Z.of_nat (length cps)) [].
Proof.
  intros from to r Hr Hlog.
  destruct (proj1 (proj2 (proj2 (decode_accepts_exactly_well_formed from))))
    as [Hbad | (cps & Hwf)].
  { rewrite (ConvertUTF82UTF16_rejects from to Hbad) in Hr.
    inversion Hr; subst. simpl in Hlog. discriminate. }
  exists cps.
  pose proof (well_formed_scalars from cps Hwf) as Hsc.
  destruct (Forall_Exists_dec (fun u => u <= 0xFFFF) (fun u => u > 0xFFFF)
              (fun u => Z_le_gt_dec u 0xFFFF) cps) as [Hbmp | Hbig].
  2:{ rewrite (ConvertUTF82UTF16_supplementary from cps to Hwf) in Hr; [discriminate|].
      eapply Exists_impl; [exact Hbig|]. simpl. intros u Hu. lia. }
  assert (Hrange : Forall (fun u => 0 <= u <= 0xFFFF) cps).
  { rewrite Forall_forall in *. intros u Hu.
    specialize (Hsc u Hu). specialize (Hbmp u Hu). lia. }
  destruct (Nat.le_gt_cases (length cps) (length to)) as [Hcap|Hshort].
  - rewrite (ConvertUTF82UTF16_bmp_units from cps to Hwf Hbmp Hcap) in Hr.
    inversion Hr; subst. split_and!; auto.
    rewrite Forall_forall in *. intros u Hu.
    specialize (Hsc u Hu). specialize (Hbmp u Hu). lia.
  - exfalso. unfold ConvertUTF82UTF16 in Hr.
    rewrite (decode_well_formed from cps Hwf) in Hr.
    rewrite count_loop_bmp in Hr by (assumption || lia). simpl in Hr.
    pose proof (copy_loop_short cps to Hrange Hshort (length cps) 0
                  ltac:(lia) ltac:(lia)) as Hcopy.
    change (take 0 cps ++ drop 0 to) with to in Hcopy.
    rewrite Hcopy in Hr. discriminate.
Qed.

Lemma ConvertUTF82UTF16_success_witness :
  exists cps : list Z,
    well_formed [xe2; x82; xac] cps /\
    Forall (fun u => 0 <= u <= 0xFFFF /\ ~ (0xD800 <= u <= 0xDFFF)) cps /\
    (length cps <= length [7; 7])%nat /\
    Converted [0x20AC; 7] 1 [] =
      Converted (cps ++ drop (length cps) [7; 7]) (Z.of_nat (length cps)) [].
Proof.
  apply (ConvertUTF82UTF16_success [xe2; x82; xac] [7; 7] (Converted [0x20AC; 7] 1 []));
    vm_compute; reflexivity.
Defined.

End Utf8Facts.

(** ** Path normalization *)

Section PathsFacts.

Import Paths.

(** *** Strings and segments *)

Lemma String_eqb_eq (a b : String) : String_eqb a b = true <-> a = b.
Proof.
  revert b. induction a as [|x a IH]; intros [|y b]; simpl; split; intros H;
    try reflexivity; try discriminate.
  - apply andb_true_iff in H. destruct H as [Hx Ha].
    apply Ascii.eqb_eq in Hx. apply IH in Ha. subst. reflexivity.
  - inversion H; subst. rewrite Ascii.eqb_refl. simpl. apply IH. reflexivity.
Qed.

Lemma String_eqb_neq (a b : String) : String_eqb a b = false <-> a <> b.
Proof.
  split.
  - intros H E. apply String_eqb_eq in E. congruence.
  - intros H. destruct (String_eqb a b) eqn:E; [|reflexivity].
    apply String_eqb_eq in E. contradiction.
Qed.

Lemma split_from_ok (s cur : String) :
  ~ In slash cur -> Forall segment_ok (split_from slash cur s).
Proof.
  revert cur. induction s as [|c s IH]; intros cur Hcur; simpl.
  - destruct cur; [constructor|]. constructor; [|constructor].
    split; [discriminate | exact Hcur].
  - destruct (Ascii.eqb_spec c slash) as [->|Hc].
    + destruct cur as [|x cur]; [apply IH; simpl; tauto|].
      constructor; [split; [discriminate | exact Hcur]|].
      apply IH. simpl. tauto.
    + apply IH. rewrite in_app_iff. simpl. intros [H|[H|[]]]; [tauto | congruence].
Qed.

Lemma split_from_segment (seg cur rest : String) :
  ~ In slash seg ->
  split_from slash cur (seg ++ rest) = split_from slash (cur ++ seg) rest.
Proof.
  revert cur. induction seg as [|c seg IH]; intros cur Hseg; simpl.
  - rewrite app_nil_r. reflexivity.
  - destruct (Ascii.eqb_spec c slash) as [->|Hc]; [simpl in Hseg; tauto|].
    rewrite IH by (simpl in Hseg; tauto).
    rewrite <- app_assoc. reflexivity.
Qed.

Lemma split_from_joined (segs : list String) (p : String) :
  Forall segment_ok segs ->
  p <> [] ->
  split_from slash p (concat (map (cons slash) segs)) = p :: segs.
Proof.
  intros Hsegs. revert p.
  induction Hsegs as [|s segs [Hne Hns] _ IH]; intros p Hp; simpl.
  - destruct p; [contradiction | reflexivity].
  - destruct p as [|x p]; [contradiction|].
    f_equal. rewrite split_from_segment by exact Hns. simpl.
    apply IH. exact Hne.
Qed.

Lemma fold_path_append (segs : list String) (p : String) :
  p <> [] ->
  fold_left path_append segs p = p ++ concat (map (cons slash) segs).
Proof.
  revert p. induction segs as [|s segs IH]; intros p Hp; simpl.
  - rewrite app_nil_r. reflexivity.
  - destruct p as [|x p]; [contradiction|].
    simpl path_append. rewrite IH by discriminate.
    simpl. f_equal. rewrite <- app_assoc. reflexivity.
Qed.

Lemma Split_joined (segs : list String) :
  Forall segment_ok segs ->
  Split slash (fold_left path_append segs []) = segs /\
  Split slash (slash :: fold_left path_append segs []) = segs.
Proof.
  intros Hsegs.
  assert (H : Split slash (fold_left path_append segs []) = segs).
  { destruct Hsegs as [|s segs [Hne Hns] Hrest]; [reflexivity|].
    simpl. rewrite fold_path_append by exact Hne.
    unfold Split. rewrite split_from_segment by exact Hns. simpl.
    apply split_from_joined; assumption. }
  split; [exact H|].
  exact H.
Qed.

(** *** The stack *)

Lemma visit_ok (stack : list String) (bit : String) :
  Forall segment_ok stack -> segment_ok bit -> Forall segment_ok (visit stack bit).
Proof.
  intros Hs Hb. unfold visit.
  destruct (String_eqb bit parent).
  - destruct Hs as [|popped stack Hp Hs]; [constructor; [exact Hb | constructor]|].
    destruct (String_eqb popped parent); [|exact Hs].
    constructor; [exact Hb|]. constructor; assumption.
  - destruct (String_eqb bit current); [exact Hs|].
    constructor; assumption.
Qed.

Lemma visit_no_current (stack : list String) (bit : String) :
  Forall (fun s => s <> current) stack ->
  Forall (fun s => s <> current) (visit stack bit).
Proof.
  intros Hs. unfold visit.
  destruct (String_eqb bit parent) eqn:Hp.
  - apply String_eqb_eq in Hp. subst bit.
    destruct Hs as [|popped stack Hx Hs]; [constructor; [discriminate | constructor]|].
    destruct (String_eqb popped parent); [|exact Hs].
    constructor; [discriminate|]. constructor; assumption.
  - destruct (String_eqb bit current) eqn:Hc; [exact Hs|].
    apply String_eqb_neq in Hc. constructor; assumption.
Qed.

Lemma fold_visit_ok (components stack : list String) :
  Forall segment_ok components -> Forall segment_ok stack ->
  Forall segment_ok (fold_left visit components stack).
Proof.
  intros Hc. revert stack.
  induction Hc as [|bit components Hb _ IH]; intros stack Hs; simpl; [exact Hs|].
  apply IH, visit_ok; assumption.
Qed.

Lemma fold_visit_no_current (components stack : list String) :
  Forall (fun s => s <> current) stack ->
  Forall (fun s => s <> current) (fold_left visit components stack).
Proof.
  revert stack. induction components as [|bit components IH]; intros stack Hs; simpl;
    [exact Hs|].
  apply IH, visit_no_current, Hs.
Qed.

(** Once a [..] is at the bottom of the stack it stays there. *)
Lemma visit_keeps_bottom (stack : list String) (bit : String) :
  last stack = Some parent -> last (visit stack bit) = Some parent.
Proof.
  intros Hl. unfold visit.
  destruct (String_eqb bit parent) eqn:Hp.
  - destruct stack as [|popped stack]; [discriminate|].
    destruct (String_eqb popped parent) eqn:Hpp.
    + rewrite last_cons in *. simpl in *. rewrite last_cons.
      destruct (last stack); [exact Hl|].
      apply String_eqb_eq in Hpp. subst. reflexivity.
    + rewrite last_cons in Hl.
      destruct (last stack) eqn:E; [exact Hl|].
      inversion Hl; subst. rewrite (proj2 (String_eqb_eq parent parent) eq_refl) in Hpp.
      discriminate.
  - destruct (String_eqb bit current); [exact Hl|].
    rewrite last_cons, Hl. reflexivity.
Qed.

Lemma fold_visit_keeps_bottom (components stack : list String) :
  last stack = Some parent -> last (fold_left visit components stack) = Some parent.
Proof.
  revert stack. induction components as [|bit components IH]; intros stack Hl; simpl;
    [exact Hl|].
  apply IH, visit_keeps_bottom, Hl.
Qed.

Lemma last_not_parent (stack : list String) :
  Forall (fun s => s <> parent) stack -> last stack <> Some parent.
Proof.
  induction 1 as [|s stack Hs _ IH]; [discriminate|].
  rewrite last_cons. destruct (last stack); [exact IH|]. congruence.
Qed.

(** While no [..] is on the stack, its height is the depth counter. *)
Lemma fold_visit_ascends (components stack : list String) :
  Forall (fun s => s <> parent) stack ->
  last (fold_left visit components stack) = Some parent <->
  ascends_from (length stack) components = true.
Proof.
  revert stack.
  induction components as [|bit components IH]; intros stack Hs; simpl.
  - split; [|discriminate]. intros H. exfalso. exact (last_not_parent stack Hs H).
  - unfold visit at 2.
    destruct (String_eqb bit parent) eqn:Hp.
    + destruct Hs as [|popped stack Hx Hs]; simpl.
      * split; [reflexivity|]. intros _.
        apply fold_visit_keeps_bottom. apply String_eqb_eq in Hp. subst. reflexivity.
      * apply String_eqb_neq in Hx. rewrite Hx. apply IH, Hs.
    + destruct (String_eqb bit current) eqn:Hc; [apply IH, Hs|].
      apply String_eqb_neq in Hp.
      apply (IH (bit :: stack)). constructor; assumption.
Qed.

Lemma segments_of_result (path : String) :
  segments_of (PathRemoveRelativeParts path) =
  rev (fold_left visit (Split slash (NormalizePath path)) []).
Proof.
  unfold PathRemoveRelativeParts, segments_of, join.
  assert (Hok : Forall segment_ok
                  (rev (fold_left visit (Split slash (NormalizePath path)) []))).
  { apply Forall_rev, fold_visit_ok; [|constructor].
    apply split_from_ok. simpl. tauto. }
  destruct (Split_joined _ Hok) as [H1 H2].
  destruct (StartsWith (NormalizePath path) slash); assumption.
Qed.

Lemma head_rev_last {A : Type} (l : list A) : head (rev l) = last l.
Proof.
  induction l as [|a l IH]; [reflexivity|].
  simpl rev. rewrite head_snoc, IH, last_cons.
  destruct (last l); reflexivity.
Qed.

(** *** Claims *)

(** C6.  The two normalizations of the specification, and the rule
    behind the second: a [..] that meets an empty stack, or a stack whose
    top is [..], is pushed as it is; the leading separator of an absolute
    path is put back in front of whatever the stack holds. *)
Theorem PathRemoveRelativeParts_examples :
  PathRemoveRelativeParts (text "a/./b/../c") = text "a/c" /\
  PathRemoveRelativeParts (text "/a/../../b") = text "/../b" /\
  visit [] parent = [parent] /\
  (forall stack : list String, visit (parent :: stack) parent = parent :: parent :: stack).
Proof.
  split_and!; try (vm_compute; reflexivity).
Qed.

(** C7, as stated, fails: the absolute path ["/a/../../b"] is normalized
    to ["/../b"], whose first segment is [..]. *)
Theorem PathRemoveRelativeParts_absolute_keeps_parent :
  ~ leading_parent_only_if_relative.
Proof.
  intros H.
  destruct (H (text "/a/../../b")) as [Hrel _].
  - vm_compute. reflexivity.
  - vm_compute in Hrel. discriminate.
Qed.

(** Both kinds of path occur on the right-hand side of C7 amended. *)
Lemma ascending_paths :
  ascends (text "../a") = true /\ StartsWith (NormalizePath (text "../a")) slash = false /\
  ascends (text "/../a") = true /\ StartsWith (NormalizePath (text "/../a")) slash = true.
Proof. split_and!; vm_compute; reflexivity. Qed.

(** *** Normalizing twice *)

Lemma visit_normal (stack : list String) (bit : String) :
  stack_normal stack -> stack_normal (visit stack bit).
Proof.
  intros (ords & k & -> & Hords). unfold visit.
  destruct (String_eqb bit parent) eqn:Hp.
  - apply String_eqb_eq in Hp. subst bit.
    destruct Hords as [|o ords [Ho1 Ho2] Hords]; simpl.
    + destruct k as [|k]; simpl.
      * exists [], 1%nat. split; [reflexivity | constructor].
      * exists [], (S (S k)). split; [reflexivity | constructor].
    + apply String_eqb_neq in Ho1. rewrite Ho1.
      exists ords, k. split; [reflexivity | exact Hords].
  - destruct (String_eqb bit current) eqn:Hc.
    + exists ords, k. split; [reflexivity | exact Hords].
    + apply String_eqb_neq in Hp, Hc.
      exists (bit :: ords), k. split; [reflexivity|].
      constructor; [split; assumption | exact Hords].
Qed.

Lemma fold_visit_normal (components stack : list String) :
  stack_normal stack -> stack_normal (fold_left visit components stack).
Proof.
  revert stack. induction components as [|bit components IH]; intros stack Hs; simpl;
    [exact Hs|].
  apply IH, visit_normal, Hs.
Qed.

Lemma fold_visit_parents (k j : nat) :
  fold_left visit (replicate k parent) (replicate j parent) = replicate (k + j) parent.
Proof.
  revert j. induction k as [|k IH]; intros j; simpl; [reflexivity|].
  replace (visit (replicate j parent) parent) with (replicate (S j) parent).
  - rewrite IH. replace (k + S j)%nat with (S (k + j)) by lia. reflexivity.
  - destruct j; reflexivity.
Qed.

Lemma fold_visit_ordinary (ords base : list String) :
  Forall (fun s => s <> parent /\ s <> current) ords ->
  fold_left visit (rev ords) base = ords ++ base.
Proof.
  induction 1 as [|o ords [Ho1 Ho2] _ IH]; simpl; [reflexivity|].
  rewrite fold_left_app, IH. simpl. unfold visit.
  apply String_eqb_neq in Ho1, Ho2. rewrite Ho1, Ho2. reflexivity.
Qed.

Lemma rev_replicate {A : Type} (k : nat) (x : A) : rev (replicate k x) = replicate k x.
Proof.
  induction k as [|k IH]; simpl; [reflexivity|].
  rewrite IH. symmetry. apply replicate_cons_app.
Qed.

(** The loop run on the segments of its own result gives the same stack. *)
Lemma fold_visit_fixed (stack : list String) :
  stack_normal stack -> fold_left visit (rev stack) [] = stack.
Proof.
  intros (ords & k & -> & Hords).
  rewrite rev_app_distr, rev_replicate, fold_left_app.
  change (@nil String) with (replicate 0 parent) at 1.
  rewrite (fold_visit_parents k 0), Nat.add_0_r.
  apply fold_visit_ordinary, Hords.
Qed.

Lemma NormalizePath_clean (path : String) :
  Forall (fun c => c <> backslash) (NormalizePath path).
Proof.
  unfold NormalizePath. induction path as [|c path IH]; simpl; constructor; [|exact IH].
  destruct (Ascii.eqb_spec c "\"%char) as [->|Hc]; [discriminate | exact Hc].
Qed.

Lemma NormalizePath_fixed (path : String) :
  Forall (fun c => c <> backslash) path -> NormalizePath path = path.
Proof.
  unfold NormalizePath. induction 1 as [|c path Hc _ IH]; simpl; [reflexivity|].
  destruct (Ascii.eqb_spec c "\"%char) as [->|_]; [contradiction|].
  rewrite IH. reflexivity.
Qed.

Lemma split_from_chars (P : ascii -> Prop) (s cur : String) :
  Forall P cur -> Forall P s -> Forall (Forall P) (split_from slash cur s).
Proof.
  intros Hcur Hs. revert cur Hcur.
  induction Hs as [|c s Hc _ IH]; intros cur Hcur; simpl.
  - destruct cur; [constructor|]. constructor; [exact Hcur | constructor].
  - destruct (Ascii.eqb c slash).
    + destruct cur as [|x cur]; [apply IH; constructor|].
      constructor; [exact Hcur | apply IH; constructor].
    + apply IH. apply Forall_app. split; [exact Hcur | constructor; [exact Hc | constructor]].
Qed.

Lemma visit_chars (P : String -> Prop) (stack : list String) (bit : String) :
  Forall P stack -> P bit -> Forall P (visit stack bit).
Proof.
  intros Hs Hb. unfold visit.
  destruct (String_eqb bit parent).
  - destruct Hs as [|popped stack Hp Hs]; [constructor; [exact Hb | constructor]|].
    destruct (String_eqb popped parent); [|exact Hs].
    constructor; [exact Hb|]. constructor; assumption.
  - destruct (String_eqb bit current); [exact Hs|]. constructor; assumption.
Qed.

Lemma fold_visit_chars (P : String -> Prop) (components stack : list String) :
  Forall P components -> Forall P stack -> Forall P (fold_left visit components stack).
Proof.
  intros Hc. revert stack.
  induction Hc as [|bit components Hb _ IH]; intros stack Hs; simpl; [exact Hs|].
  apply IH, visit_chars; assumption.
Qed.

Lemma fold_path_append_chars (P : ascii -> Prop) (segs : list String) (p : String) :
  P slash -> Forall (Forall P) segs -> Forall P p ->
  Forall P (fold_left path_append segs p).
Proof.
  intros Hslash Hsegs. revert p.
  induction Hsegs as [|s segs Hs _ IH]; intros p Hp; simpl; [exact Hp|].
  apply IH. unfold path_append. destruct p as [|x p]; [exact Hs|].
  apply Forall_app. split; [exact Hp | constructor; assumption].
Qed.

Lemma result_clean (path : String) :
  Forall (fun c => c <> backslash) (PathRemoveRelativeParts path).
Proof.
  unfold PathRemoveRelativeParts.
  assert (Hj : Forall (fun c => c <> backslash)
                 (join (fold_left visit (Split slash (NormalizePath path)) []))).
  { unfold join. apply fold_path_append_chars; [discriminate | | constructor].
    apply Forall_rev, fold_visit_chars; [|constructor].
    apply split_from_chars; [constructor | apply NormalizePath_clean]. }
  destruct (StartsWith (NormalizePath path) slash); [|exact Hj].
  constructor; [discriminate | exact Hj].
Qed.

Lemma join_not_rooted (stack : list String) :
  Forall segment_ok stack -> StartsWith (join stack) slash = false.
Proof.
  intros Hok. unfold join.
  apply Forall_rev in Hok.
  destruct Hok as [|s segs [Hne Hns] _]; [reflexivity|].
  simpl. rewrite fold_path_append by exact Hne.
  destruct s as [|x s]; [contradiction|]. simpl.
  destruct (Ascii.eqb_spec x slash) as [->|]; [|reflexivity].
  exfalso. apply Hns. left. reflexivity.
Qed.

(** Normalizing a normalized path changes nothing. *)
Theorem PathRemoveRelativeParts_idempotent :
  forall path : String,
    PathRemoveRelativeParts (PathRemoveRelativeParts path) = PathRemoveRelativeParts path.
Proof.
  intros path.
  pose proof (segments_of_result path) as Hseg. unfold segments_of in Hseg.
  pose proof (NormalizePath_fixed _ (result_clean path)) as Hnorm.
  set (stack := fold_left visit (Split slash (NormalizePath path)) []) in *.
  assert (Hnormal : stack_normal stack).
  { apply fold_visit_normal. exists [], 0%nat. split; [reflexivity | constructor]. }
  assert (Hok : Forall segment_ok stack).
  { apply fold_visit_ok; [|constructor]. apply split_from_ok. simpl. tauto. }
  assert (Hroot : StartsWith (PathRemoveRelativeParts path) slash
                  = StartsWith (NormalizePath path) slash).
  { unfold PathRemoveRelativeParts. fold stack.
    destruct (StartsWith (NormalizePath path) slash); [reflexivity|].
    apply join_not_rooted, Hok. }
  unfold PathRemoveRelativeParts at 1.
  rewrite Hnorm, Hseg, Hroot, (fold_visit_fixed stack Hnormal).
  reflexivity.
Qed.

(** The result is made of the separator [/] and of segments that are
    neither empty nor [.]: no backslash and no doubled separator is left,
    and every [..] stands before every ordinary segment. *)
Theorem PathRemoveRelativeParts_shape :
  forall path : String,
    Forall (fun c => c <> backslash) (PathRemoveRelativeParts path) /\
    exists (k : nat) (ords : list String),
      segments_of (PathRemoveRelativeParts path) = replicate k parent ++ ords /\
      Forall (fun s => s <> parent /\ s <> current /\ segment_ok s) ords /\
      PathRemoveRelativeParts path =
        (if StartsWith (NormalizePath path) slash then [slash] else []) ++
        fold_left path_append (replicate k parent ++ ords) [].
Proof.
  intros path. split; [apply result_clean|].
  pose proof (segments_of_result path) as Hseg.
  set (stack := fold_left visit (Split slash (NormalizePath path)) []) in *.
  assert (Hnormal : stack_normal stack).
  { apply fold_visit_normal. exists [], 0%nat. split; [reflexivity | constructor]. }
  assert (Hok : Forall segment_ok stack).
  { apply fold_visit_ok; [|constructor]. apply split_from_ok. simpl. tauto. }
  destruct Hnormal as (ords & k & Hst & Hords).
  exists k, (rev ords). split_and!.
  - rewrite Hseg, Hst, rev_app_distr, rev_replicate. reflexivity.
  - apply Forall_rev. rewrite Hst in Hok. apply Forall_app in Hok. destruct Hok as [Hok _].
    rewrite Forall_forall in *. intros s Hs.
    destruct (Hords s Hs) as [H1 H2]. split_and!; auto.
  - unfold PathRemoveRelativeParts. fold stack. unfold join.
    rewrite Hst, rev_app_distr, rev_replicate.
    destruct (StartsWith (NormalizePath path) slash); reflexivity.
Qed.

(** C7, amended.  The output never has a [.] segment, and its first
    segment is [..] exactly when the path ascends past its own start,
    be the path relative or absolute.  The output starts with the
    separator exactly when the normalized input does, so a relative path
    that ascends gives [..] and an absolute path that ascends gives
    [/..], either one alone or followed by a separator and the rest. *)
Theorem PathRemoveRelativeParts_segments :
  forall path : String,
    ~ In current (segments_of (PathRemoveRelativeParts path)) /\
    (head (segments_of (PathRemoveRelativeParts path)) = Some parent <->
     ascends path = true) /\
    StartsWith (PathRemoveRelativeParts path) slash
    = StartsWith (NormalizePath path) slash /\
    (ascends path = true ->
     exists rest : String,
       PathRemoveRelativeParts path
       = (if StartsWith (NormalizePath path) slash then [slash] else []) ++ parent ++ rest /\
       (rest = [] \/ head rest = Some slash)).
Proof.
  intros path.
  pose proof (segments_of_result path) as Hseg.
  set (stack := fold_left visit (Split slash (NormalizePath path)) []) in *.
  assert (Hok : Forall segment_ok stack).
  { apply fold_visit_ok; [|constructor]. apply split_from_ok. simpl. tauto. }
  assert (Hasc : head (segments_of (PathRemoveRelativeParts path)) = Some parent <->
                 ascends path = true).
  { rewrite Hseg, head_rev_last.
    apply (fold_visit_ascends (Split slash (NormalizePath path)) []). constructor. }
  split_and!.
  - rewrite Hseg. intros Hin. apply in_rev in Hin.
    pose proof (fold_visit_no_current (Split slash (NormalizePath path)) []
                  ltac:(constructor)) as Hno.
    rewrite Forall_forall in Hno.
    apply (Hno current); [|reflexivity].
    apply list_elem_of_In. exact Hin.
  - exact Hasc.
  - unfold PathRemoveRelativeParts. fold stack.
    destruct (StartsWith (NormalizePath path) slash); [reflexivity|].
    apply join_not_rooted, Hok.
  - intros Ha. apply Hasc in Ha. rewrite Hseg in Ha.
    unfold PathRemoveRelativeParts. fold stack. unfold join.
    destruct (rev stack) as [|first more]; [discriminate|].
    simpl in Ha. injection Ha as ->.
    exists (concat (map (cons slash) more)). split.
    + simpl fold_left. rewrite fold_path_append by discriminate.
      destruct (StartsWith (NormalizePath path) slash); reflexivity.
    + destruct more as [|s more]; [left | right]; reflexivity.
Qed.

Lemma PathRemoveRelativeParts_segments_witness :
  (exists rest : String,
     PathRemoveRelativeParts (text "/a/../../b") = [slash] ++ parent ++ rest /\
     (rest = [] \/ head rest = Some slash)) /\
  (exists rest : String,
     PathRemoveRelativeParts (text "a/../../b") = [] ++ parent ++ rest /\
     (rest = [] \/ head rest = Some slash)).
Proof.
  split.
  - apply (PathRemoveRelativeParts_segments (text "/a/../../b")). vm_compute. reflexivity.
  - apply (PathRemoveRelativeParts_segments (text "a/../../b")). vm_compute. reflexivity.
Defined.

End PathsFacts.

(** ** Path analysis *)

Section PathPartsFacts.

Import Paths PathParts.

(** *** [FindLast] and the substring operations *)

Lemma FindLast_absent (path : String) (c : ascii) :
  Forall (fun x => x <> c) path -> FindLast path c = INVALID_INDEX.
Proof.
  induction 1 as [|x path Hx _ IH]; simpl; [reflexivity|].
  rewrite IH. simpl. destruct (Ascii.eqb_spec x c); [contradiction | reflexivity].
Qed.

Lemma FindLast_append (pre post : String) (c : ascii) :
  Forall (fun x => x <> c) post -> FindLast (pre ++ post) c = FindLast pre c.
Proof.
  intros Hpost. induction pre as [|x pre IH]; simpl.
  - apply FindLast_absent, Hpost.
  - rewrite IH. reflexivity.
Qed.

Lemma FindLast_last (pre post : String) (c : ascii) :
  Forall (fun x => x <> c) post ->
  FindLast (pre ++ c :: post) c = Z.of_nat (length pre).
Proof.
  intros Hpost. induction pre as [|x pre IH].
  - simpl. rewrite (FindLast_absent post c Hpost). simpl.
    rewrite Ascii.eqb_refl. reflexivity.
  - change ((x :: pre) ++ c :: post) with (x :: (pre ++ c :: post)).
    cbn [FindLast]. rewrite IH.
    destruct (Z.eqb_spec (Z.of_nat (length pre)) INVALID_INDEX) as [E|_];
      [unfold INVALID_INDEX in E; lia|].
    simpl length. lia.
Qed.

Lemma FindLast_range (path : String) (c : ascii) :
  INVALID_INDEX <= FindLast path c < Z.of_nat (length path).
Proof.
  unfold INVALID_INDEX. induction path as [|x path IH]; simpl length; cbn [FindLast];
    [unfold INVALID_INDEX; lia|].
  destruct (Z.eqb_spec (FindLast path c) INVALID_INDEX) as [E|E];
    [destruct (Ascii.eqb x c)|]; unfold INVALID_INDEX in *; lia.
Qed.

Lemma FindLast_found (path : String) (c : ascii) :
  FindLast path c <> INVALID_INDEX ->
  exists pre post : String,
    path = pre ++ c :: post /\ Forall (fun x => x <> c) post /\
    FindLast path c = Z.of_nat (length pre).
Proof.
  induction path as [|x path IH]; simpl; [congruence|].
  destruct (Z.eqb_spec (FindLast path c) INVALID_INDEX) as [E|E].
  - destruct (Ascii.eqb_spec x c) as [->|Hx]; [|congruence].
    intros _. exists [], path. split_and!; try reflexivity.
    clear IH. induction path as [|y path IHp]; [constructor|].
    simpl in E.
    destruct (Z.eqb_spec (FindLast path c) INVALID_INDEX) as [E'|E']; [|
      pose proof (FindLast_range path c); unfold INVALID_INDEX in *; lia].
    destruct (Ascii.eqb_spec y c) as [->|Hy]; [unfold INVALID_INDEX in E; lia|].
    constructor; [exact Hy | apply IHp, E'].
  - intros _. destruct (IH E) as (pre & post & -> & Hpost & Hidx).
    exists (x :: pre), post. split_and!; try reflexivity; [exact Hpost|].
    rewrite Hidx. simpl length. lia.
Qed.

Lemma Substring_prefix (pre post : String) :
  Substring (pre ++ post) 0 (Z.of_nat (length pre)) = pre.
Proof.
  unfold Substring. rewrite Nat2Z.id.
  change (drop (Z.to_nat 0) (pre ++ post)) with (pre ++ post).
  apply take_app_length.
Qed.

Lemma Left_prefix (pre post : String) : Left (pre ++ post) (Z.of_nat (length pre)) = pre.
Proof. unfold Left. rewrite Nat2Z.id. apply take_app_length. Qed.

(** *** [GetPathWithoutExtension] *)

(** The path is cut at its last ['.'], wherever that stands: what follows
    it may hold separators, so a dot in a directory name cuts the file
    name off.  A path without a dot is returned as it is. *)
Theorem GetPathWithoutExtension_cuts_at_last_dot :
  (forall pre ext : String,
     Forall (fun x => x <> "."%char) ext ->
     GetPathWithoutExtension (pre ++ "."%char :: ext) = pre) /\
  (forall path : String,
     Forall (fun x => x <> "."%char) path -> GetPathWithoutExtension path = path).
Proof.
  split.
  - intros pre ext Hext. unfold GetPathWithoutExtension.
    rewrite FindLast_last by exact Hext.
    destruct (Z.eqb_spec (Z.of_nat (length pre)) (-1)) as [E|_]; [lia|]. simpl.
    apply Substring_prefix.
  - intros path Hpath. unfold GetPathWithoutExtension.
    rewrite FindLast_absent by exact Hpath. reflexivity.
Qed.

Lemma GetPathWithoutExtension_cuts_at_last_dot_witness :
  GetPathWithoutExtension (text "dir.v2" ++ "."%char :: text "d/file") = text "dir.v2" /\
  GetPathWithoutExtension (text "a/b") = text "a/b".
Proof.
  split.
  - apply (proj1 GetPathWithoutExtension_cuts_at_last_dot).
    repeat constructor; discriminate.
  - apply (proj2 GetPathWithoutExtension_cuts_at_last_dot).
    repeat constructor; discriminate.
Defined.

(** *** [GetDirectoryName] *)

Lemma not_slash (c : ascii) :
  is_slash c = false -> c <> "\"%char /\ c <> "/"%char.
Proof.
  unfold is_slash, DirectorySeparatorChar, AltDirectorySeparatorChar.
  intros H. apply orb_false_iff in H. destruct H as [H1 H2].
  split; intros ->; discriminate.
Qed.

Lemma no_slash_split (rest : String) :
  Forall (fun x => is_slash x = false) rest ->
  Forall (fun x => x <> "\"%char) rest /\ Forall (fun x => x <> "/"%char) rest.
Proof.
  intros H. split; eapply Forall_impl; try exact H; simpl; intros c Hc;
    apply not_slash in Hc; tauto.
Qed.

Lemma GetDirectoryName_split (pre rest : String) (sep : ascii) :
  is_slash sep = true ->
  Forall (fun x => is_slash x = false) rest ->
  GetDirectoryName (pre ++ sep :: rest) = pre.
Proof.
  - intros Hsep Hrest.
    destruct (no_slash_split rest Hrest) as [Hb Hf].
    unfold GetDirectoryName.
    pose proof (FindLast_range pre "\"%char) as R1.
    pose proof (FindLast_range pre "/"%char) as R2.
    unfold is_slash, DirectorySeparatorChar, AltDirectorySeparatorChar in Hsep.
    apply orb_true_iff in Hsep.
    destruct Hsep as [Hs|Hs]; apply Ascii.eqb_eq in Hs; subst sep.
    + rewrite (FindLast_last pre rest "\"%char Hb).
      rewrite (FindLast_append pre ("\"%char :: rest) "/"%char)
        by (constructor; [discriminate | exact Hf]).
      rewrite Z.max_r by lia.
      destruct (Z.eqb_spec (Z.of_nat (length pre)) INVALID_INDEX) as [E|_];
        [unfold INVALID_INDEX in E; lia|].
      apply Left_prefix.
    + rewrite (FindLast_last pre rest "/"%char Hf).
      rewrite (FindLast_append pre ("/"%char :: rest) "\"%char)
        by (constructor; [discriminate | exact Hb]).
      rewrite Z.max_l by lia.
      destruct (Z.eqb_spec (Z.of_nat (length pre)) INVALID_INDEX) as [E|_];
        [unfold INVALID_INDEX in E; lia|].
      apply Left_prefix.
Qed.

Lemma GetDirectoryName_plain (path : String) :
  Forall (fun x => is_slash x = false) path -> GetDirectoryName path = [].
Proof.
  intros Hpath. destruct (no_slash_split path Hpath) as [Hb Hf].
  unfold GetDirectoryName.
  rewrite (FindLast_absent path _ Hb), (FindLast_absent path _ Hf). reflexivity.
Qed.

(** The directory name is what stands before the last ['/'] or [''];
    a path with neither has the empty directory name, and so has a path
    whose only separator is its first character. *)
Theorem GetDirectoryName_before_last_slash :
  (forall (pre rest : String) (sep : ascii),
     is_slash sep = true ->
     Forall (fun x => is_slash x = false) rest ->
     GetDirectoryName (pre ++ sep :: rest) = pre) /\
  (forall path : String,
     Forall (fun x => is_slash x = false) path -> GetDirectoryName path = []).
Proof. split; [exact GetDirectoryName_split | exact GetDirectoryName_plain]. Qed.

Lemma GetDirectoryName_before_last_slash_witness :
  GetDirectoryName (text "C:\a" ++ "\"%char :: text "b.txt") = text "C:\a" /\
  GetDirectoryName ([] ++ "/"%char :: text "file") = [] /\
  GetDirectoryName (text "C:file") = [].
Proof.
  destruct GetDirectoryName_before_last_slash as [H1 H2].
  split_and!.
  - apply H1; [reflexivity | repeat constructor].
  - apply H1; [reflexivity | repeat constructor].
  - apply H2. repeat constructor.
Defined.

(** *** [GetFileName] *)

Lemma char_at_lookup (path : String) (i : nat) (c : ascii) :
  path !! i = Some c -> char_at path (Z.of_nat i) = Ok c.
Proof.
  intros H. unfold char_at.
  destruct (Z.ltb_spec (Z.of_nat i) 0); [lia|].
  rewrite Nat2Z.id, H. reflexivity.
Qed.

Lemma separator_test (c : ascii) :
  negb (Ascii.eqb c DirectorySeparatorChar) &&
  negb (Ascii.eqb c AltDirectorySeparatorChar) &&
  negb (Ascii.eqb c VolumeSeparatorChar) = negb (is_separator c).
Proof.
  unfold is_separator.
  destruct (Ascii.eqb c DirectorySeparatorChar),
           (Ascii.eqb c AltDirectorySeparatorChar),
           (Ascii.eqb c VolumeSeparatorChar); reflexivity.
Qed.

Lemma scan_back_plain (path : String) (n : nat) :
  Forall (fun x => is_separator x = false) path ->
  (n <= length path)%nat ->
  scan_back path n = Ok None.
Proof.
  intros Hpath. induction n as [|n IH]; intros Hn; simpl; [reflexivity|].
  destruct (lookup_lt_is_Some_2 path n ltac:(lia)) as [c Hc].
  rewrite (char_at_lookup path n c Hc). simpl.
  rewrite separator_test.
  rewrite Forall_lookup in Hpath. rewrite (Hpath n c Hc). simpl.
  apply IH. lia.
Qed.

Lemma scan_back_stops (pre name : String) (sep : ascii) (k : nat) :
  is_separator sep = true ->
  Forall (fun x => is_separator x = false) name ->
  (k <= length name)%nat ->
  scan_back (pre ++ sep :: name) (length pre + 1 + k) = Ok (Some (Z.of_nat (length pre))).
Proof.
  intros Hsep Hname. induction k as [|k IH]; intros Hk.
  - replace (length pre + 1 + 0)%nat with (S (length pre)) by lia. simpl.
    rewrite (char_at_lookup _ (length pre) sep) by (apply list_lookup_middle; reflexivity).
    simpl. rewrite separator_test, Hsep. reflexivity.
  - replace (length pre + 1 + S k)%nat with (S (length pre + 1 + k)) by lia. simpl.
    destruct (lookup_lt_is_Some_2 name k ltac:(lia)) as [c Hc].
    assert (Hat : (pre ++ sep :: name) !! (length pre + 1 + k)%nat = Some c).
    { rewrite lookup_app_r by lia.
      replace (length pre + 1 + k - length pre)%nat with (S k) by lia. exact Hc. }
    rewrite (char_at_lookup _ _ c Hat). simpl.
    rewrite separator_test.
    rewrite (proj1 (Forall_lookup _ name) Hname k c Hc). simpl.
    apply IH. lia.
Qed.

Lemma split_at_last_separator (path : String) :
  Forall (fun x => is_separator x = false) path \/
  exists (pre name : String) (sep : ascii),
    path = pre ++ sep :: name /\ is_separator sep = true /\
    Forall (fun x => is_separator x = false) name.
Proof.
  induction path as [|c path IH]; [left; constructor|].
  destruct IH as [Hplain | (pre & name & sep & -> & Hsep & Hname)].
  - destruct (is_separator c) eqn:Hc.
    + right. exists [], path, c. auto.
    + left. constructor; assumption.
  - right. exists (c :: pre), name, sep. auto.
Qed.

Lemma GetFileName_split (pre name : String) (sep : ascii) :
  is_separator sep = true ->
  Forall (fun x => is_separator x = false) name ->
  GetFileName (pre ++ sep :: name) = Ok name.
Proof.
  intros Hsep Hname. unfold GetFileName, Length.
  rewrite Nat2Z.id, length_app. simpl length.
  replace (length pre + S (length name))%nat with (length pre + 1 + length name)%nat by lia.
  rewrite (scan_back_stops pre name sep (length name) Hsep Hname) by lia.
  simpl. f_equal. unfold Substring.
  replace (Z.to_nat (Z.of_nat (length pre) + 1)) with (length pre + 1)%nat by lia.
  rewrite <- drop_drop, drop_app_length. simpl.
  apply take_ge. lia.
Qed.

Lemma GetFileName_plain (path : String) :
  Forall (fun x => is_separator x = false) path -> GetFileName path = Ok path.
Proof.
  intros Hpath. unfold GetFileName, Length.
  rewrite Nat2Z.id, scan_back_plain by (assumption || lia). reflexivity.
Qed.

(** The file name is what follows the last ['\'], ['/'] or [':'], and the
    whole path when it has none of them; the scan never indexes outside
    the path, and the file name of a file name is itself. *)
Theorem GetFileName_after_last_separator :
  (forall (pre name : String) (sep : ascii),
     is_separator sep = true ->
     Forall (fun x => is_separator x = false) name ->
     GetFileName (pre ++ sep :: name) = Ok name) /\
  (forall path : String,
     Forall (fun x => is_separator x = false) path -> GetFileName path = Ok path) /\
  (forall path : String,
     exists name : String,
       GetFileName path = Ok name /\
       Forall (fun x => is_separator x = false) name /\
       GetFileName name = Ok name).
Proof.
  split_and!; [exact GetFileName_split | exact GetFileName_plain |].
  intros path.
  destruct (split_at_last_separator path) as [Hplain | (pre & name & sep & -> & Hsep & Hname)].
  - exists path. split_and!; auto using GetFileName_plain.
  - exists name. split_and!; auto using GetFileName_split, GetFileName_plain.
Qed.

Lemma GetFileName_after_last_separator_witness :
  GetFileName (text "C:\a" ++ "\"%char :: text "b.txt") = Ok (text "b.txt") /\
  GetFileName (text "noseparator") = Ok (text "noseparator").
Proof.
  destruct GetFileName_after_last_separator as (H1 & H2 & _).
  split.
  - apply H1; [reflexivity | repeat constructor].
  - apply H2. repeat constructor.
Defined.

(** Directory name, separator and file name put the path together
    again, provided no [':'] follows the last slash. *)
Theorem GetDirectoryName_GetFileName_recompose :
  forall (pre name : String) (sep : ascii),
    is_slash sep = true ->
    Forall (fun x => is_separator x = false) name ->
    exists file : String,
      GetFileName (pre ++ sep :: name) = Ok file /\
      GetDirectoryName (pre ++ sep :: name) ++ sep :: file = pre ++ sep :: name.
Proof.
  intros pre name sep Hsep Hname.
  exists name. split.
  - apply GetFileName_split; [|exact Hname].
    unfold is_separator. unfold is_slash in Hsep. rewrite Hsep. reflexivity.
  - rewrite (GetDirectoryName_split pre name sep Hsep); [reflexivity|].
    eapply Forall_impl; [exact Hname|]. simpl. intros c Hc.
    unfold is_separator in Hc. unfold is_slash.
    apply orb_false_iff in Hc. tauto.
Qed.

Lemma GetDirectoryName_GetFileName_recompose_witness :
  exists file : String,
    GetFileName (text "C:\a" ++ "\"%char :: text "b.txt") = Ok file /\
    GetDirectoryName (text "C:\a" ++ "\"%char :: text "b.txt") ++ "\"%char :: file
    = text "C:\a" ++ "\"%char :: text "b.txt".
Proof.
  apply GetDirectoryName_GetFileName_recompose; [reflexivity | repeat constructor].
Defined.

(** *** [GetFileNameWithoutExtension] *)

(** The result is the file name cut at the last ['.'] of the file name:
    dots in the directory part play no role, a file name without a dot
    is returned whole, and taking the file name of
    [GetPathWithoutExtension] gives the same when the file name has a
    dot. *)
Theorem GetFileNameWithoutExtension_cuts_file_name :
  (forall (path name : String),
     GetFileName path = Ok name ->
     (forall stem ext : String,
        name = stem ++ "."%char :: ext -> Forall (fun x => x <> "."%char) ext ->
        GetFileNameWithoutExtension path = Ok stem) /\
     (Forall (fun x => x <> "."%char) name ->
      GetFileNameWithoutExtension path = Ok name)) /\
  (forall (pre stem ext : String) (sep : ascii),
     is_separator sep = true ->
     Forall (fun x => is_separator x = false) stem ->
     Forall (fun x => is_separator x = false) ext ->
     Forall (fun x => x <> "."%char) ext ->
     GetFileName (GetPathWithoutExtension (pre ++ sep :: stem ++ "."%char :: ext))
     = GetFileNameWithoutExtension (pre ++ sep :: stem ++ "."%char :: ext)).
Proof.
  split.
  - intros path name Hname. unfold GetFileNameWithoutExtension. rewrite Hname. simpl.
    split.
    + intros stem ext -> Hext.
      rewrite FindLast_last by exact Hext.
      destruct (Z.eqb_spec (Z.of_nat (length stem)) (-1)) as [E|_]; [lia|]. simpl.
      rewrite Substring_prefix. reflexivity.
    + intros Hplain. rewrite FindLast_absent by exact Hplain. reflexivity.
  - intros pre stem ext sep Hsep Hstem Hext Hdots.
    assert (Hcut : GetPathWithoutExtension (pre ++ sep :: stem ++ "."%char :: ext)
                   = pre ++ sep :: stem).
    { replace (pre ++ sep :: stem ++ "."%char :: ext)
        with ((pre ++ sep :: stem) ++ "."%char :: ext)
        by (rewrite <- app_assoc; reflexivity).
      unfold GetPathWithoutExtension.
      rewrite FindLast_last by exact Hdots.
      destruct (Z.eqb_spec (Z.of_nat (length (pre ++ sep :: stem))) (-1)) as [E|_]; [lia|].
      simpl. apply Substring_prefix. }
    rewrite Hcut, (GetFileName_split pre stem sep Hsep Hstem).
    unfold GetFileNameWithoutExtension.
    rewrite (GetFileName_split pre (stem ++ "."%char :: ext) sep Hsep).
    + simpl. rewrite FindLast_last by exact Hdots.
      destruct (Z.eqb_spec (Z.of_nat (length stem)) (-1)) as [E|_]; [lia|]. simpl.
      rewrite Substring_prefix. reflexivity.
    + apply Forall_app. split; [exact Hstem|]. constructor; [reflexivity | exact Hext].
Qed.

Lemma GetFileNameWithoutExtension_cuts_file_name_witness :
  GetFileNameWithoutExtension (text "dir.v2/archive.tar.gz") = Ok (text "archive.tar") /\
  GetFileNameWithoutExtension (text "dir.v2/file") = Ok (text "file") /\
  GetFileName (GetPathWithoutExtension
                 (text "dir.v2" ++ "/"%char :: text "archive.tar" ++ "."%char :: text "gz"))
  = GetFileNameWithoutExtension
      (text "dir.v2" ++ "/"%char :: text "archive.tar" ++ "."%char :: text "gz").
Proof.
  destruct GetFileNameWithoutExtension_cuts_file_name as [H1 H2].
  split_and!.
  - apply (proj1 (H1 (text "dir.v2/archive.tar.gz") (text "archive.tar.gz")
                     ltac:(vm_compute; reflexivity)) (text "archive.tar") (text "gz"));
      [reflexivity | repeat constructor; discriminate].
  - apply (proj2 (H1 (text "dir.v2/file") (text "file") ltac:(vm_compute; reflexivity))).
    repeat constructor; discriminate.
  - apply H2; [reflexivity | repeat constructor .. | repeat constructor; discriminate].
Defined.

(** *** [RemoveLongPathPrefix] *)

Lemma Remove_2_6 (path : String) :
  (8 <= length path)%nat -> Remove path 2 6 = Ok (take 2 path ++ drop 8 path).
Proof.
  intros Hlen. unfold Remove, Length.
  destruct (Z.leb_spec (2 + 6) (Z.of_nat (length path))) as [_|Hlt]; [reflexivity | lia].
Qed.

Lemma Remove_2_6_short (path : String) :
  (length path < 8)%nat -> Remove path 2 6 = OutOfBounds 8.
Proof.
  intros Hlen. unfold Remove, Length.
  destruct (Z.leb_spec (2 + 6) (Z.of_nat (length path))) as [Hle|_]; [lia | reflexivity].
Qed.

Lemma Substring_from_4 (path : String) :
  (4 <= length path)%nat -> Substring_from path 4 = Ok (drop 4 path).
Proof.
  intros Hlen. unfold Substring_from, Length.
  destruct (Z.leb_spec 4 (Z.of_nat (length path))) as [_|Hlt]; [reflexivity | lia].
Qed.

Lemma Substring_from_4_short (path : String) :
  (length path < 4)%nat -> Substring_from path 4 = OutOfBounds 4.
Proof.
  intros Hlen. unfold Substring_from, Length.
  destruct (Z.leb_spec 4 (Z.of_nat (length path))) as [Hle|_]; [lia | reflexivity].
Qed.

Lemma RemoveLongPathPrefix_long (sw1 sw2 : String -> String -> bool) (path result : String) :
  (8 <= length path)%nat ->
  RemoveLongPathPrefix sw1 sw2 path result = Ok (take 2 path ++ drop 8 path).
Proof.
  intros Hlen. unfold RemoveLongPathPrefix.
  destruct (negb (sw2 path (text "\\?\UNC\"))).
  - rewrite Substring_from_4 by lia. simpl. apply Remove_2_6, Hlen.
  - simpl. apply Remove_2_6, Hlen.
Qed.

(** Neither test decides anything: [result] is overwritten with [path]
    after both, so every path of eight characters or more loses its
    characters 2 to 7 and never comes back unchanged; that turns the
    prefix [\\?\UNC\] into [\\].  On a shorter path [Remove(2, 6)], or
    [Substring(4)] before it, is called with a range outside the string
    and no result is defined. *)
Theorem RemoveLongPathPrefix_always_cuts :
  forall (sw1 sw2 : String -> String -> bool) (path result : String),
    ((8 <= length path)%nat ->
     RemoveLongPathPrefix sw1 sw2 path result = Ok (take 2 path ++ drop 8 path) /\
     take 2 path ++ drop 8 path <> path) /\
    ((length path < 8)%nat ->
     exists offset : Z, RemoveLongPathPrefix sw1 sw2 path result = OutOfBounds offset) /\
    (forall rest : String,
       RemoveLongPathPrefix sw1 sw2 (text "\\?\UNC\" ++ rest) result
       = Ok (text "\\" ++ rest)).
Proof.
  intros sw1 sw2 path result. split_and!.
  - intros Hlen. split; [apply RemoveLongPathPrefix_long, Hlen|].
    intros Heq. apply (f_equal (@length ascii)) in Heq.
    rewrite length_app, length_take, length_drop in Heq. lia.
  - intros Hlen. unfold RemoveLongPathPrefix.
    destruct (negb (sw2 path (text "\\?\UNC\"))).
    + destruct (Nat.lt_ge_cases (length path) 4) as [Hshort|Hmid].
      * exists 4. rewrite Substring_from_4_short by exact Hshort. reflexivity.
      * exists 8. rewrite Substring_from_4 by exact Hmid. simpl.
        apply Remove_2_6_short, Hlen.
    + exists 8. simpl. apply Remove_2_6_short, Hlen.
  - intros rest. rewrite RemoveLongPathPrefix_long; [reflexivity|].
    rewrite length_app. simpl. lia.
Qed.

Lemma RemoveLongPathPrefix_always_cuts_witness :
  (RemoveLongPathPrefix (fun _ _ => false) (fun _ _ => false) (text "C:\dir\file.txt") []
   = Ok (take 2 (text "C:\dir\file.txt") ++ drop 8 (text "C:\dir\file.txt")) /\
   take 2 (text "C:\dir\file.txt") ++ drop 8 (text "C:\dir\file.txt")
   <> text "C:\dir\file.txt") /\
  (exists offset : Z,
     RemoveLongPathPrefix (fun _ _ => false) (fun _ _ => false) (text "C:\x") []
     = OutOfBounds offset).
Proof.
  split.
  - apply (RemoveLongPathPrefix_always_cuts (fun _ _ => false) (fun _ _ => false)
             (text "C:\dir\file.txt") []).
    simpl. lia.
  - apply (RemoveLongPathPrefix_always_cuts (fun _ _ => false) (fun _ _ => false)
             (text "C:\x") []).
    simpl. lia.
Defined.

End PathPartsFacts.

(** ** Case-insensitive search *)

Section FindFacts.

Import Find.

Lemma ToUpper_nonzero (c : Z) : c <> 0 -> ToUpper c <> 0.
Proof.
  intros Hc. unfold ToUpper.
  destruct (Z.leb_spec 97 c); destruct (Z.leb_spec c 122); simpl; lia.
Qed.

Lemma to_char_ToUpper_nonzero (c : ascii) :
  c <> zero -> to_char (ToUpper (char_val c)) <> zero.
Proof.
  destruct c as [[] [] [] [] [] [] [] []]; vm_compute; congruence.
Qed.

Lemma scan_initial_zero (cmp : list Z -> list Z -> Z -> Z)
      (toFind : list Z) (length : Z) (str : list Z) (pos : nat) :
  scan cmp 0 toFind length str pos = None.
Proof.
  revert pos. induction str as [|c str IH]; intros pos; simpl; [reflexivity|].
  destruct (Z.eqb_spec c 0) as [|Hc]; [reflexivity|].
  destruct (Z.eqb_spec (ToUpper c) 0) as [E|_]; [|simpl; apply IH].
  exfalso. exact (ToUpper_nonzero c Hc E).
Qed.

Lemma scan_char_initial_zero (cmp : list ascii -> list ascii -> Z -> Z)
      (toFind : list ascii) (length : Z) (str : list ascii) (pos : nat) :
  scan_char cmp zero toFind length str pos = None.
Proof.
  revert pos. induction str as [|c str IH]; intros pos; simpl; [reflexivity|].
  destruct (Ascii.eqb_spec c zero) as [|Hc]; [reflexivity|].
  destruct (Ascii.eqb_spec (to_char (ToUpper (char_val c))) zero) as [E|_];
    [|simpl; apply IH].
  exfalso. exact (to_char_ToUpper_nonzero c Hc E).
Qed.

(** The scan behaves as the specification describes on ordinary
    needles. *)
Lemma FindIgnoreCase_hello_world :
  FindIgnoreCase CompareIgnoreCase_model
    (Some (units "Hello World")) (Some (units "WORLD")) = Some 6%nat /\
  FindIgnoreCase CompareIgnoreCase_model
    (Some (units "Hello World")) (Some (units "absent")) = None /\
  FindIgnoreCase CompareIgnoreCase_model None (Some (units "x")) = None.
Proof. split_and!; vm_compute; reflexivity. Qed.

(** *** Claims *)

(** C8, as stated, fails for every comparison function: with an empty
    needle [findInitial] is the terminator, which no unit of the
    haystack equals, so nothing is ever found. *)
Theorem FindIgnoreCase_empty_needle_never_matches :
  ~ exists (cmp : list Z -> list Z -> Z -> Z) (cmp8 : list ascii -> list ascii -> Z -> Z),
      empty_needle_matches_at_start cmp cmp8.
Proof.
  intros (cmp & cmp8 & H16 & _).
  specialize (H16 (units "abc")).
  unfold FindIgnoreCase in H16.
  change (ToUpper (deref [])) with 0 in H16.
  rewrite scan_initial_zero in H16. discriminate.
Qed.

(** C8, amended.  For every haystack, both overloads report not-found
    for the empty needle. *)
Theorem FindIgnoreCase_empty_needle_not_found :
  forall (cmp : list Z -> list Z -> Z -> Z) (cmp8 : list ascii -> list ascii -> Z -> Z)
         (s : list Z) (s8 : list ascii),
    FindIgnoreCase cmp (Some s) (Some []) = None /\
    FindIgnoreCase_char cmp8 (Some s8) (Some []) = None.
Proof.
  intros cmp cmp8 s s8. split.
  - unfold FindIgnoreCase. change (ToUpper (deref [])) with 0.
    apply scan_initial_zero.
  - unfold FindIgnoreCase_char.
    change (to_char (ToUpper (char_val (deref_char [])))) with zero.
    apply scan_char_initial_zero.
Qed.

(** *** The scan returns the first offset that passes its tests *)

Lemma Length_nonneg (s : list Z) : 0 <= Length s.
Proof. induction s as [|c s IH]; simpl; [lia|]. destruct (c =? 0); lia. Qed.

Lemma Length_char_nonneg (s : list ascii) : 0 <= Length_char s.
Proof. induction s as [|c s IH]; simpl; [lia|]. destruct (Ascii.eqb c zero); lia. Qed.

Lemma scan_first_hit (cmp : list Z -> list Z -> Z -> Z) (toFind str : list Z) (pos : nat) :
  match scan cmp (ToUpper (deref toFind)) (tail toFind)
             (wrap_signed 32 (Length toFind - 1)) str pos with
  | Some p =>
      exists k : nat,
        p = (pos + k)%nat /\ Z.of_nat k < Length str /\
        hit cmp toFind str k = true /\
        forall j : nat, (j < k)%nat -> hit cmp toFind str j = false
  | None =>
      forall j : nat, Z.of_nat j < Length str -> hit cmp toFind str j = false
  end.
Proof.
  revert pos. induction str as [|c str IH]; intros pos; simpl.
  - intros j Hj. lia.
  - destruct (Z.eqb_spec c 0) as [->|Hc]; [intros j Hj; lia|].
    pose proof (Length_nonneg str) as Hlen.
    destruct ((ToUpper c =? ToUpper (deref toFind)) &&
              (cmp str (tail toFind) (wrap_signed 32 (Length toFind - 1)) =? 0)) eqn:Hhit.
    + exists 0%nat. split_and!; [lia | lia | exact Hhit | intros j Hj; lia].
    + specialize (IH (S pos)).
      destruct (scan cmp (ToUpper (deref toFind)) (tail toFind)
                     (wrap_signed 32 (Length toFind - 1)) str (S pos)) as [p|].
      * destruct IH as (k & -> & Hk & Hh & Hfirst).
        exists (S k). split_and!; [lia | lia | exact Hh |].
        intros [|j] Hj; [exact Hhit | apply Hfirst; lia].
      * intros [|j] Hj; [exact Hhit | apply IH; lia].
Qed.

Lemma scan_char_first_hit (cmp : list ascii -> list ascii -> Z -> Z)
      (toFind str : list ascii) (pos : nat) :
  match scan_char cmp (to_char (ToUpper (char_val (deref_char toFind)))) (tail toFind)
                  (wrap_signed 32 (Length_char toFind - 1)) str pos with
  | Some p =>
      exists k : nat,
        p = (pos + k)%nat /\ Z.of_nat k < Length_char str /\
        hit_char cmp toFind str k = true /\
        forall j : nat, (j < k)%nat -> hit_char cmp toFind str j = false
  | None =>
      forall j : nat, Z.of_nat j < Length_char str -> hit_char cmp toFind str j = false
  end.
Proof.
  revert pos. induction str as [|c str IH]; intros pos; simpl.
  - intros j Hj. lia.
  - destruct (Ascii.eqb_spec c zero) as [->|Hc]; [intros j Hj; lia|].
    pose proof (Length_char_nonneg str) as Hlen.
    destruct (Ascii.eqb (to_char (ToUpper (char_val c)))
                        (to_char (ToUpper (char_val (deref_char toFind)))) &&
              (cmp str (tail toFind) (wrap_signed 32 (Length_char toFind - 1)) =? 0))
      eqn:Hhit.
    + exists 0%nat. split_and!; [lia | lia | exact Hhit | intros j Hj; lia].
    + specialize (IH (S pos)).
      destruct (scan_char cmp (to_char (ToUpper (char_val (deref_char toFind))))
                          (tail toFind) (wrap_signed 32 (Length_char toFind - 1))
                          str (S pos)) as [p|].
      * destruct IH as (k & -> & Hk & Hh & Hfirst).
        exists (S k). split_and!; [lia | lia | exact Hh |].
        intros [|j] Hj; [exact Hhit | apply Hfirst; lia].
      * intros [|j] Hj; [exact Hhit | apply IH; lia].
Qed.

(** Both overloads return the first offset before the terminator that
    passes the two tests of the loop, and [nullptr] exactly when no
    offset before the terminator passes them. *)
Theorem FindIgnoreCase_first_match :
  forall (cmp : list Z -> list Z -> Z -> Z) (cmp8 : list ascii -> list ascii -> Z -> Z),
    (forall str toFind : list Z,
       match FindIgnoreCase cmp (Some str) (Some toFind) with
       | Some pos =>
           Z.of_nat pos < Length str /\
           hit cmp toFind str pos = true /\
           forall j : nat, (j < pos)%nat -> hit cmp toFind str j = false
       | None =>
           forall j : nat, Z.of_nat j < Length str -> hit cmp toFind str j = false
       end) /\
    (forall str toFind : list ascii,
       match FindIgnoreCase_char cmp8 (Some str) (Some toFind) with
       | Some pos =>
           Z.of_nat pos < Length_char str /\
           hit_char cmp8 toFind str pos = true /\
           forall j : nat, (j < pos)%nat -> hit_char cmp8 toFind str j = false
       | None =>
           forall j : nat, Z.of_nat j < Length_char str -> hit_char cmp8 toFind str j = false
       end).
Proof.
  intros cmp cmp8. split; intros str toFind.
  - unfold FindIgnoreCase.
    pose proof (scan_first_hit cmp toFind str 0) as H.
    destruct (scan cmp (ToUpper (deref toFind)) (tail toFind)
                   (wrap_signed 32 (Length toFind - 1)) str 0) as [p|]; [|exact H].
    destruct H as (k & -> & Hk & Hh & Hfirst). simpl. auto.
  - unfold FindIgnoreCase_char.
    pose proof (scan_char_first_hit cmp8 toFind str 0) as H.
    destruct (scan_char cmp8 (to_char (ToUpper (char_val (deref_char toFind))))
                        (tail toFind) (wrap_signed 32 (Length_char toFind - 1)) str 0)
      as [p|]; [|exact H].
    destruct H as (k & -> & Hk & Hh & Hfirst). simpl. auto.
Qed.

End FindFacts.

(** ** The float parsing wrapper *)

Section FloatParseFacts.

Import FloatParse.

Lemma c_str_length (str : list Z) : Find.Length str = Z.of_nat (length (c_str str)).
Proof.
  induction str as [|c str IH]; simpl; [reflexivity|].
  destruct (c =? 0); simpl; lia.
Qed.

Lemma c_str_nonzero (str : list Z) : Forall (fun c => c <> 0) (c_str str).
Proof.
  induction str as [|c str IH]; simpl; [constructor|].
  destruct (Z.eqb_spec c 0); constructor; assumption.
Qed.

Lemma unit_at_c_str (str : list Z) (i : nat) :
  (i < length (c_str str))%nat -> unit_at str i = nth i (c_str str) 0.
Proof.
  unfold unit_at. revert i. induction str as [|c str IH]; intros i Hi; simpl in *; [lia|].
  destruct (Z.eqb_spec c 0); simpl in *; [lia|].
  destruct i as [|i]; [reflexivity|]. apply IH. lia.
Qed.

Lemma unit_at_terminator (str : list Z) :
  unit_at str (length (c_str str)) = 0.
Proof.
  unfold unit_at. induction str as [|c str IH]; simpl; [reflexivity|].
  destruct (Z.eqb_spec c 0) as [->|]; simpl; [reflexivity | exact IH].
Qed.

(** The test of the wrapper is the test for the three literals. *)
Lemma literal_test (str : list Z) :
  (unit_at str 0 =? code "0") &&
  ((Length str =? 1) ||
   ((Length str =? 3) &&
    ((unit_at str 1 =? code ",") || (unit_at str 1 =? code ".")) &&
    (unit_at str 2 =? code "0"))) = true <->
  zero_literal (c_str str).
Proof.
  unfold Length, zero_literal. rewrite c_str_length.
  pose proof (unit_at_c_str str) as Hat.
  pose proof (unit_at_terminator str) as Hend.
  destruct (c_str str) as [|a [|b [|c [|d rest]]]]; simpl length in *.
  - rewrite Hend. vm_compute. split; [discriminate|].
    intros [H|[H|H]]; discriminate.
  - rewrite (Hat 0%nat) by lia. simpl nth.
    change (Z.of_nat 1 =? 1) with true. rewrite orb_true_l, andb_true_r.
    change (code "0") with 48. change (Find.units "0") with [48].
    change (Find.units "0.0") with [48; 46; 48].
    change (Find.units "0,0") with [48; 44; 48].
    destruct (Z.eqb_spec a 48) as [->|Hne]; split; auto; try discriminate.
    intros [H|[H|H]]; congruence.
  - change (Z.of_nat 2 =? 1) with false. change (Z.of_nat 2 =? 3) with false.
    simpl. rewrite andb_false_r. split; [discriminate|].
    intros [H|[H|H]]; discriminate.
  - rewrite (Hat 0%nat), (Hat 1%nat), (Hat 2%nat) by lia. simpl nth.
    change (Z.of_nat 3 =? 1) with false. change (Z.of_nat 3 =? 3) with true.
    change (code "0") with 48. change (code ",") with 44. change (code ".") with 46.
    change (Find.units "0") with [48].
    change (Find.units "0.0") with [48; 46; 48].
    change (Find.units "0,0") with [48; 44; 48].
    simpl.
    destruct (Z.eqb_spec a 48) as [->|Ha]; simpl.
    2:{ split; [discriminate|]. intros [H|[H|H]]; congruence. }
    destruct (Z.eqb_spec c 48) as [->|Hc].
    2:{ rewrite andb_false_r. split; [discriminate|]. intros [H|[H|H]]; congruence. }
    rewrite andb_true_r.
    destruct (Z.eqb_spec b 44) as [->|Hb1]; simpl; [split; auto|].
    destruct (Z.eqb_spec b 46) as [->|Hb2]; simpl; [split; auto|].
    split; [discriminate|]. intros [H|[H|H]]; congruence.
  - assert (Hlen : Z.of_nat (S (S (S (S (length rest))))) <> 1 /\
                   Z.of_nat (S (S (S (S (length rest))))) <> 3) by lia.
    destruct Hlen as [H1 H3].
    apply Z.eqb_neq in H1, H3. rewrite H1, H3. simpl.
    rewrite andb_false_r. split; [discriminate|].
    intros [H|[H|H]]; discriminate.
Qed.

(** *** Claims *)

(** C9.  [Parse] reports success exactly when the parsed value is not
    zero or the text is one of ["0"], ["0.0"], ["0,0"]; the value it hands
    back is the one [wcstof] read.  Hence ["0.0"] is a success whatever
    [wcstof] makes of it, and ["abc"], which [wcstof] reads as zero, is a
    failure with the value zero. *)
Theorem Parse_success_iff :
  forall (float : Type) (wcstof : list Z -> float) (is_zero : float -> bool),
    (forall str : list Z,
       value float (Parse float wcstof is_zero str) = wcstof str /\
       (success float (Parse float wcstof is_zero str) = true <->
        is_zero (wcstof str) = false \/ zero_literal (c_str str))) /\
    Parse float wcstof is_zero (Find.units "0.0") = (wcstof (Find.units "0.0"), false) /\
    (is_zero (wcstof (Find.units "abc")) = true ->
     Parse float wcstof is_zero (Find.units "abc") = (wcstof (Find.units "abc"), true)).
Proof.
  intros float wcstof is_zero. split_and!.
  - intros str. unfold Parse, value, success.
    pose proof (literal_test str) as Hlit.
    destruct (is_zero (wcstof str)) eqn:Hz; simpl.
    + split; [reflexivity|]. rewrite negb_involutive, Hlit.
      split; [intros H; right; exact H | intros [H|H]; [discriminate | exact H]].
    + split; [reflexivity|]. split; [left; reflexivity | reflexivity].
  - unfold Parse. destruct (is_zero (wcstof (Find.units "0.0"))); reflexivity.
  - intros Hz. unfold Parse. rewrite Hz. reflexivity.
Qed.

Lemma Parse_success_iff_witness :
  Parse (Z * Z) read_decimal fraction_is_zero (Find.units "abc")
  = (read_decimal (Find.units "abc"), true).
Proof.
  apply (proj2 (proj2 (Parse_success_iff (Z * Z) read_decimal fraction_is_zero))).
  vm_compute. reflexivity.
Defined.

Lemma read_decimal_examples :
  read_decimal (Find.units "0.0") = (0, 10) /\
  read_decimal (Find.units "abc") = (0, 1) /\
  read_decimal (Find.units "-12.5") = (-125, 10) /\
  Parse (Z * Z) read_decimal fraction_is_zero (Find.units "0.0") = ((0, 10), false) /\
  Parse (Z * Z) read_decimal fraction_is_zero (Find.units "0.00") = ((0, 100), true) /\
  Parse (Z * Z) read_decimal fraction_is_zero (Find.units "1.5") = ((15, 10), false).
Proof. split_and!; vm_compute; reflexivity. Qed.

End FloatParseFacts.

